(** * Command-line helpers of the static web apps CLI: [src/core/utils/cli.ts]

    A shallow embedding of the three helpers of [cli.ts] and the properties
    established about them:

    - [argv], the flag reader over [process.argv];
    - [registerProcessExit], the one-shot exit hook;
    - [createStartupScriptCommand], the startup-script resolver.

    JavaScript strings are sequences of UTF-16 code units; they are modelled
    as lists of code units so that [trim], [split] and [startsWith] act on the
    same data the engine sees. *)

From Stdlib Require Import List NArith Bool Arith Lia.
From Stdlib Require Import Strings.String Strings.Ascii.
Import ListNotations.

Set Implicit Arguments.

(* ================================================================== *)
(** ** JavaScript string primitives used by [cli.ts] *)
(* ================================================================== *)

Module JS.

(** A UTF-16 code unit. *)
Definition code_unit := N.

(** A JavaScript string value. *)
Definition jsstring := list code_unit.

(** A string literal of the source, read unit by unit. *)
Definition lit (s : string) : jsstring :=
  List.map N_of_ascii (list_ascii_of_string s).

(** [a === b] on strings. *)
Fixpoint streq (a b : jsstring) : bool :=
  match a, b with
  | [], [] => true
  | x :: a', y :: b' => N.eqb x y && streq a' b'
  | _, _ => false
  end.

(** [s.startsWith(prefix)]. *)
Fixpoint startsWith (s prefix : jsstring) {struct prefix} : bool :=
  match prefix, s with
  | [], _ => true
  | _ :: _, [] => false
  | p :: prefix', c :: s' => N.eqb c p && startsWith s' prefix'
  end.

(** [s.includes(sub)]: [sub] occurs at some position of [s]. *)
Fixpoint includes (s sub : jsstring) : bool :=
  startsWith s sub
  || match s with
     | [] => false
     | _ :: s' => includes s' sub
     end.

(** [s.split(sep)] for a separator of one code unit (the source only splits
    on "=" and on ":").  The result of [split] is never the empty array, so
    it is returned as its first element and the array of the others. *)
Fixpoint split (s : jsstring) (sep : code_unit) : jsstring * list jsstring :=
  match s with
  | [] => ([], [])
  | c :: s' =>
      let (h, t) := split s' sep in
      if N.eqb c sep then ([], h :: t) else (c :: h, t)
  end.

(** [parts.join(sep)]. *)
Fixpoint join (parts : list jsstring) (sep : jsstring) : jsstring :=
  match parts with
  | [] => []
  | p :: rest =>
      match rest with
      | [] => p
      | _ :: _ => p ++ sep ++ join rest sep
      end
  end.

(** The code units [String.prototype.trim] strips: WhiteSpace and
    LineTerminator of ECMAScript. *)
Definition isWhiteSpace (c : code_unit) : bool :=
  (N.eqb c 9 || N.eqb c 10 || N.eqb c 11 || N.eqb c 12 || N.eqb c 13
   || N.eqb c 32 || N.eqb c 160 || N.eqb c 5760
   || (N.leb 8192 c && N.leb c 8202)
   || N.eqb c 8232 || N.eqb c 8233 || N.eqb c 8239 || N.eqb c 8287
   || N.eqb c 12288 || N.eqb c 65279)%bool.

Fixpoint trimStart (s : jsstring) : jsstring :=
  match s with
  | [] => []
  | c :: s' => if isWhiteSpace c then trimStart s' else s
  end.

Definition trimEnd (s : jsstring) : jsstring := rev (trimStart (rev s)).

(** [s.trim()]. *)
Definition trim (s : jsstring) : jsstring := trimEnd (trimStart s).

(** [!!s] for a string: the empty string is the only falsy one. *)
Definition truthy (s : jsstring) : bool :=
  match s with
  | [] => false
  | _ :: _ => true
  end.

(** [arr.includes(x)] on an array of strings. *)
Definition arrayIncludes (arr : list jsstring) (x : jsstring) : bool :=
  existsb (streq x) arr.

(** The code units of the separators and of the quotation mark. *)
Definition EQUALS : code_unit := 61%N.
Definition COLON : code_unit := 58%N.
Definition QUOTE : code_unit := 34%N.

End JS.

Import JS.

(* ================================================================== *)
(** ** [argv] *)
(* ================================================================== *)

(** What [argv] returns: [T extends string | number | boolean | null]; the
    body produces a string, a boolean or [null]. *)
Inductive JsVal : Type :=
| JString (s : jsstring)
| JBool (b : bool)
| JNull.

(** One iteration of the [for] loop of [argv], for [entry = flags[index]] and
    [next = flags[index + 1]] ([None] when that is [undefined]).
    [Some v] is [return v]; [None] lets the loop go on to [index + 1]. *)
Definition examine (flag entry : jsstring) (next : option jsstring)
  : option JsVal :=
  if startsWith entry (lit "--") then
    if includes entry (lit "=") then
      (* const [key, value] = entry.split("=") *)
      let (key, others) := split entry EQUALS in
      let value := nth_error others 0 in
      if streq flag (trim key) then
        Some (match value with
              | Some v => if truthy v then JString (trim v) else JNull
              | None => JNull
              end)
      else None
    else if streq flag (trim entry) then
      (* const nextEntry = flags[index + 1]?.trim() *)
      let nextEntry := option_map trim next in
      match nextEntry with
      | None => Some (JBool true)
      | Some n =>
          if startsWith n (lit "--") then Some (JBool true)
          else if truthy n then Some (JString n)
          else None
      end
    else
      (* flag wasn't found *)
      Some (JBool false)
  else None.

(** The loop of [argv] from position [index] on, [flags] being the tokens
    [flags[index]], [flags[index + 1]], ... still to visit. *)
Fixpoint argv_loop (flags : list jsstring) (flag : jsstring) : JsVal :=
  match flags with
  | [] => JNull
  | entry :: rest =>
      match examine flag entry (hd_error rest) with
      | Some v => v
      | None => argv_loop rest flag
      end
  end.

(** [argv(flag)], with [process.argv] passed as [flags]. *)
Definition argv (flags : list jsstring) (flag : jsstring) : JsVal :=
  argv_loop flags flag.

(* ================================================================== *)
(** ** [registerProcessExit] *)
(* ================================================================== *)

(** The three channels the hook subscribes to with [process.on]. *)
Inductive Channel : Type := SIGINT | SIGTERM | EXIT.

(** The behaviour of a registered [fn] as far as the hook can observe it:
    it returns, it throws, or it first emits a termination event itself
    ([process.emit], which runs the listeners synchronously) and goes on. *)
Inductive Callback : Type :=
| Return
| Throw
| Emit (c : Channel) (k : Callback).

(** The environment captured by one [wrapper]: the [fn] it was given and its
    own [terminated] variable. *)
Record Closure : Type := mkClosure {
  fn : Callback;
  terminated : bool
}.

(** What is recorded of a run: the assignment [terminated = true] and the
    call [fn()] of the wrapper with a given identity. *)
Inductive Event : Type :=
| GuardSet (id : nat)
| Invoked (id : nat).

(** The process: the closures allocated so far (a wrapper is named by its
    position), the listeners of each channel in subscription order, and the
    events so far, the latest first. *)
Record Process : Type := mkProcess {
  closures : list Closure;
  onSIGINT : list nat;
  onSIGTERM : list nat;
  onExit : list nat;
  trace : list Event
}.

Definition initial : Process := mkProcess [] [] [] [] [].

Definition listeners (c : Channel) (p : Process) : list nat :=
  match c with
  | SIGINT => onSIGINT p
  | SIGTERM => onSIGTERM p
  | EXIT => onExit p
  end.

(** [registerProcessExit(fn)]: a fresh [terminated = false], and the wrapper
    subscribed to "SIGINT", "SIGTERM" and "exit". *)
Definition registerProcessExit (f : Callback) (p : Process) : Process :=
  let wrapper := List.length (closures p) in
  mkProcess (closures p ++ [mkClosure f false])
            (onSIGINT p ++ [wrapper])
            (onSIGTERM p ++ [wrapper])
            (onExit p ++ [wrapper])
            (trace p).

(** [terminated = true] in the closure at position [id]. *)
Fixpoint set_terminated (id : nat) (cs : list Closure) : list Closure :=
  match cs, id with
  | [], _ => []
  | c :: cs', O => mkClosure (fn c) true :: cs'
  | c :: cs', S i => c :: set_terminated i cs'
  end.

Definition assign_terminated (id : nat) (p : Process) : Process :=
  mkProcess (set_terminated id (closures p)) (onSIGINT p) (onSIGTERM p)
            (onExit p) (GuardSet id :: trace p).

Definition record_call (id : nat) (p : Process) : Process :=
  mkProcess (closures p) (onSIGINT p) (onSIGTERM p) (onExit p)
            (Invoked id :: trace p).

(** How a piece of code ends. *)
Inductive Completion : Type := Normal | Thrown.

(** A computation on the process; [None] when the depth allowed for nested
    calls of callbacks is used up. *)
Definition Exec : Type := Process -> option (Completion * Process).

Definition andThen (m k : Exec) : Exec :=
  fun p =>
    match m p with
    | Some (Normal, p') => k p'
    | other => other
    end.

(** The listeners of an emitted event are called in order; an exception of
    one of them leaves the others uncalled. *)
Fixpoint call_all (w : nat -> Exec) (ids : list nat) : Exec :=
  match ids with
  | [] => fun p => Some (Normal, p)
  | id :: rest => andThen (w id) (call_all w rest)
  end.

(** The body of a callback, [w] being what a listener does when called. *)
Fixpoint run_callback (w : nat -> Exec) (k : Callback) : Exec :=
  match k with
  | Return => fun p => Some (Normal, p)
  | Throw => fun p => Some (Thrown, p)
  | Emit c k' =>
      andThen (fun p => call_all w (listeners c p) p) (run_callback w k')
  end.

(** The wrapper of [registerProcessExit]:
    [if (!terminated) { terminated = true; fn(); }].
    [depth] bounds how many calls of callbacks may be nested. *)
Fixpoint wrapper (depth : nat) (id : nat) : Exec :=
  fun p =>
    match nth_error (closures p) id with
    | None => Some (Normal, p)
    | Some c =>
        if negb (terminated c) then
          match depth with
          | O => None
          | S d =>
              run_callback (wrapper d) (fn c)
                           (record_call id (assign_terminated id p))
          end
        else Some (Normal, p)
    end.

(** A termination trigger fires: every listener of the channel is called. *)
Definition emit (depth : nat) (c : Channel) : Exec :=
  fun p => call_all (wrapper depth) (listeners c p) p.

(** What happens to a process from outside: a call of [registerProcessExit]
    or a termination trigger.  Triggers may go on after a callback threw. *)
Inductive Action : Type :=
| Register (f : Callback)
| Fire (c : Channel).

Fixpoint run (depth : nat) (acts : list Action) (p : Process)
  : option Process :=
  match acts with
  | [] => Some p
  | Register f :: rest => run depth rest (registerProcessExit f p)
  | Fire c :: rest =>
      match emit depth c p with
      | Some (_, p') => run depth rest p'
      | None => None
      end
  end.

(** How often [fn] of wrapper [id] was called. *)
Fixpoint calls (id : nat) (tr : list Event) : nat :=
  match tr with
  | [] => 0
  | Invoked j :: tr' => (if Nat.eqb j id then 1 else 0) + calls id tr'
  | GuardSet _ :: tr' => calls id tr'
  end.

(** Every call of an [fn] comes right after the assignment of its own guard
    (the trace has the latest event first). *)
Fixpoint guard_first (tr : list Event) : Prop :=
  match tr with
  | [] => True
  | Invoked id :: tr' =>
      match tr' with
      | GuardSet j :: _ => j = id
      | _ => False
      end /\ guard_first tr'
  | GuardSet _ :: tr' => guard_first tr'
  end.

(** The number of [Register] actions: the wrappers that exist in the end. *)
Fixpoint registrations (acts : list Action) : nat :=
  match acts with
  | [] => 0
  | Register _ :: rest => S (registrations rest)
  | Fire _ :: rest => registrations rest
  end.

(* ================================================================== *)
(** ** [createStartupScriptCommand] *)
(* ================================================================== *)

(** Modelled from the spec: the type [SWACLIConfig] is declared outside
    [cli.ts]; the spec gives it as a configuration object exposing an optional
    base directory field, the only one [createStartupScriptCommand] reads. *)
Record SWACLIConfig : Type := mkConfig {
  appLocation : option jsstring
}.

(** Modelled from the spec: the logger of [./logger] is given by its
    interface [error(message: string, fatal: boolean) -> void]; a call is
    recorded with its two arguments. *)
Record LogCall : Type := mkLogCall {
  message : jsstring;
  fatal : bool
}.

Section StartupScript.

(** The collaborators of the Node runtime. *)
Variable isAbsolute : jsstring -> bool.            (* path.isAbsolute *)
Variable resolve : jsstring -> jsstring -> jsstring. (* path.resolve *)
Variable existsSync : jsstring -> bool.            (* fs.existsSync *)
Variable cwd : jsstring.                           (* process.cwd() *)

(** [appLocation || process.cwd()]. *)
Definition baseDirectory (options : SWACLIConfig) : jsstring :=
  match appLocation options with
  | Some a => if truthy a then a else cwd
  | None => cwd
  end.

(** The path the second branch checks on disk. *)
Definition resolved (startupScript : jsstring) (options : SWACLIConfig)
  : jsstring :=
  if negb (isAbsolute startupScript)
  then resolve (baseDirectory options) startupScript
  else startupScript.

Definition notFoundMessage (path : jsstring) : jsstring :=
  lit "Script file " ++ [QUOTE] ++ path ++ [QUOTE] ++ lit " was not found.".

(** [createStartupScriptCommand(startupScript, options)]; [log] holds the
    calls of [logger.error] made so far, the result has those made since
    appended. *)
Definition createStartupScriptCommand
           (startupScript : jsstring) (options : SWACLIConfig)
           (log : list LogCall) : option jsstring * list LogCall :=
  if includes startupScript (lit ":") then
    let (npmOrYarnBin, npmOrYarnScript) := split startupScript COLON in
    if arrayIncludes [lit "npm"; lit "yarn"] npmOrYarnBin then
      (Some (npmOrYarnBin ++ lit " run "
             ++ join npmOrYarnScript (lit ":") ++ lit " --if-present"),
       log)
    else if arrayIncludes [lit "npx"] npmOrYarnBin then
      (Some (npmOrYarnBin ++ lit " " ++ join npmOrYarnScript (lit ":")),
       log)
    else (None, log)
  else
    let startupScript := resolved startupScript options in
    if existsSync startupScript then (Some startupScript, log)
    else (None, log ++ [mkLogCall (notFoundMessage startupScript) true]).

End StartupScript.

(** A POSIX stand-in for the [path] module, to run the resolver on concrete
    references: absolute paths start with "/", and a relative path is put
    behind its base directory. *)
Definition posixIsAbsolute (p : jsstring) : bool := startsWith p (lit "/").

Definition posixResolve (base p : jsstring) : jsstring :=
  if posixIsAbsolute p then p
  else if posixIsAbsolute base then base ++ lit "/" ++ p
  else lit "/" ++ base ++ lit "/" ++ p.

(** A file system holding exactly the listed paths. *)
Definition filesOf (paths : list jsstring) (p : jsstring) : bool :=
  existsb (streq p) paths.

(** The scan of [argv] gets to position [index]: no iteration before it
    returns. *)
Fixpoint reaches (flags : list jsstring) (flag : jsstring) (index : nat)
         {struct index} : bool :=
  match index with
  | O => true
  | S i =>
      match flags with
      | [] => false
      | entry :: rest =>
          match examine flag entry (hd_error rest) with
          | None => reaches rest flag i
          | Some _ => false
          end
      end
  end.

(** The two rules by which a token matches the target flag: [--key=value]
    with the trimmed key equal to the flag, and the token without "=" equal
    to the flag once trimmed. *)
Definition matches_key_value (flag entry : jsstring) : bool :=
  startsWith entry (lit "--") && includes entry (lit "=")
  && streq flag (trim (fst (split entry EQUALS))).

Definition matches_exact (flag entry : jsstring) : bool :=
  startsWith entry (lit "--") && negb (includes entry (lit "="))
  && streq flag (trim entry).

Definition matched (flag entry : jsstring) : bool :=
  matches_key_value flag entry || matches_exact flag entry.

(** A token that starts with "--" and has no "=". *)
Definition bare_flag (entry : jsstring) : bool :=
  startsWith entry (lit "--") && negb (includes entry (lit "=")).

(** The value of [terminated] in the closure of wrapper [id]. *)
Definition guard (id : nat) (p : Process) : bool :=
  match nth_error (closures p) id with
  | Some c => terminated c
  | None => false
  end.

(** The closures whose [terminated] is still [false]. *)
Fixpoint live_closures (cs : list Closure) : nat :=
  match cs with
  | [] => 0
  | c :: cs' => (if terminated c then 0 else 1) + live_closures cs'
  end.

Definition live (p : Process) : nat := live_closures (closures p).

(** What holds of a process at any time: an [fn] was called at most once,
    and not at all while its guard is [false]; and every call came right
    after the assignment of its guard. *)
Definition one_shot (p : Process) : Prop :=
  (forall id, calls id (trace p) <= if guard id p then 1 else 0)
  /\ guard_first (trace p).

(** A listener that, from a process with at most [n] live closures, ends,
    keeps [one_shot] and revives no closure. *)
Definition well_behaved (n : nat) (w : nat -> Exec) : Prop :=
  forall id p,
    live p <= n -> one_shot p ->
    exists r p', w id p = Some (r, p') /\ one_shot p' /\ live p' <= live p.

(** A string that is empty or starts with a unit that [trim] keeps. *)
Definition clean_start (s : jsstring) : bool :=
  match s with
  | [] => true
  | c :: _ => negb (isWhiteSpace c)
  end.

(** The tokens the scan of [argv] goes past without a look at what follows:
    those that do not start with "--", and those of the form [--key=...]
    whose trimmed key is not the flag. *)
Definition passed_over (flag entry : jsstring) : bool :=
  negb (startsWith entry (lit "--"))
  || (includes entry (lit "=")
      && negb (streq flag (trim (fst (split entry EQUALS))))).

(** A result by which [argv] tells that the flag is there: [true] or a
    string. *)
Definition found (v : JsVal) : bool :=
  match v with
  | JString _ => true
  | JBool b => b
  | JNull => false
  end.

(** A callback that does not throw, whatever it emits before it returns. *)
Fixpoint returns (k : Callback) : bool :=
  match k with
  | Return => true
  | Throw => false
  | Emit _ k' => returns k'
  end.

(** No callback registered in [acts] throws. *)
Fixpoint callbacks_return (acts : list Action) : bool :=
  match acts with
  | [] => true
  | Register f :: rest => returns f && callbacks_return rest
  | Fire _ :: rest => callbacks_return rest
  end.

Definition all_return (p : Process) : bool :=
  forallb returns (List.map fn (closures p)).

(** The calls recorded are exactly those of the wrappers whose guard is
    set. *)
Definition accounted (p : Process) : Prop :=
  forall id, calls id (trace p) = if guard id p then 1 else 0.

(** Every wrapper listens on every channel, in the order of registration. *)
Definition wired (p : Process) : Prop :=
  forall c, listeners c p = seq 0 (List.length (closures p)).

(** [p'] comes after [p]: same listeners and callbacks, no guard reset, and
    the calls still accounted for. *)
Definition follows (p p' : Process) : Prop :=
  (forall c, listeners c p' = listeners c p)
  /\ List.map fn (closures p') = List.map fn (closures p)
  /\ (forall id, guard id p = true -> guard id p' = true)
  /\ (accounted p -> accounted p').

(** A listener that keeps to [follows], leaves its own guard set, and ends
    normally when no callback throws. *)
Definition orderly (w : nat -> Exec) : Prop :=
  forall id p r p',
    w id p = Some (r, p') ->
    follows p p'
    /\ (id < List.length (closures p) -> guard id p' = true)
    /\ (all_return p = true -> r = Normal).

(** A process in which every wrapper is subscribed everywhere, the calls
    are accounted for and no callback throws. *)
Definition ready (p : Process) : Prop :=
  accounted p /\ wired p /\ all_return p = true.

(* ================================================================== *)
(** ** Facts about the string primitives *)
(* ================================================================== *)

Lemma streq_eq (a b : jsstring) : streq a b = true <-> a = b.
Proof.
  revert b; induction a as [|x a IH]; intros [|y b]; simpl;
    try (split; [discriminate | discriminate]); try tauto.
  rewrite andb_true_iff, N.eqb_eq, IH.
  split; [intros [-> ->]; reflexivity | intros H; injection H; auto].
Qed.

Lemma streq_refl (a : jsstring) : streq a a = true.
Proof. apply streq_eq; reflexivity. Qed.

Lemma streq_neq (a b : jsstring) : a <> b -> streq a b = false.
Proof.
  intros H; destruct (streq a b) eqn:E; [|reflexivity].
  apply streq_eq in E; contradiction.
Qed.

Lemma includes_unit (s : jsstring) (c : code_unit) :
  includes s [c] = true <-> In c s.
Proof.
  induction s as [|x s IH]; simpl.
  - split; [discriminate | tauto].
  - rewrite orb_true_iff, IH, andb_true_r, N.eqb_eq. tauto.
Qed.

Lemma includes_unit_false (s : jsstring) (c : code_unit) :
  includes s [c] = false <-> ~ In c s.
Proof.
  rewrite <- includes_unit. destruct (includes s [c]); split; intros H;
    try reflexivity; try discriminate; try (intros K; discriminate).
  exfalso; apply H; reflexivity.
Qed.

Lemma split_without (s : jsstring) (sep : code_unit) :
  ~ In sep s -> split s sep = (s, []).
Proof.
  induction s as [|x s IH]; simpl; intros H; [reflexivity|].
  rewrite IH by tauto.
  destruct (N.eqb_spec x sep) as [->|_]; [tauto | reflexivity].
Qed.

Lemma split_at_first (a b : jsstring) (sep : code_unit) :
  ~ In sep a ->
  split (a ++ sep :: b) sep = (a, fst (split b sep) :: snd (split b sep)).
Proof.
  induction a as [|x a IH]; simpl; intros H.
  - rewrite N.eqb_refl. destruct (split b sep); reflexivity.
  - rewrite IH by tauto.
    destruct (N.eqb_spec x sep) as [->|_]; [tauto | reflexivity].
Qed.

(** Joining the pieces of a split with the separator gives the string back. *)
Lemma join_split (s : jsstring) (sep : code_unit) :
  join (fst (split s sep) :: snd (split s sep)) [sep] = s.
Proof.
  induction s as [|x s IH]; [reflexivity|].
  cbn [split]. destruct (split s sep) as [h t] eqn:E.
  cbn [fst snd] in IH.
  destruct (N.eqb x sep) eqn:Ex; cbn [fst snd].
  - apply N.eqb_eq in Ex; subst x.
    change (join ([] :: h :: t) [sep]) with ([] ++ [sep] ++ join (h :: t) [sep]).
    rewrite IH. reflexivity.
  - destruct t as [|t0 t]; cbn [join] in *.
    + now rewrite IH.
    + rewrite <- IH. reflexivity.
Qed.

(** A string with the separator in it is a first piece, the separator and a
    remainder. *)
Lemma first_separator (s : jsstring) (sep : code_unit) :
  In sep s -> exists a b, s = a ++ sep :: b /\ ~ In sep a.
Proof.
  induction s as [|x s IH]; simpl; [tauto|]. intros H.
  destruct (N.eq_dec x sep) as [->|Hx].
  - exists [], s. split; [reflexivity | tauto].
  - destruct H as [H|H]; [contradiction|].
    destruct (IH H) as (a & b & -> & Ha).
    exists (x :: a), b. split; [reflexivity|]. simpl. intuition.
Qed.

Lemma trimStart_dashes (l : jsstring) :
  exists l', trimStart (l ++ lit "--") = l' ++ lit "--".
Proof.
  induction l as [|x l [l' IH]]; simpl.
  - exists []. reflexivity.
  - destruct (isWhiteSpace x).
    + exists l'. exact IH.
    + exists (x :: l). reflexivity.
Qed.

(** Trimming keeps the two dashes a token starts with. *)
Lemma startsWith_dashes_trim (s : jsstring) :
  startsWith s (lit "--") = true -> startsWith (trim s) (lit "--") = true.
Proof.
  intros H.
  destruct s as [|a [|b s]]; simpl in H; try discriminate.
  { rewrite andb_false_r in H. discriminate. }
  apply andb_true_iff in H as [Ha H].
  apply andb_true_iff in H as [Hb _].
  apply N.eqb_eq in Ha, Hb. subst a b.
  unfold trim, trimEnd.
  change (trimStart (45%N :: 45%N :: s)) with (45%N :: 45%N :: s).
  change (rev (45%N :: 45%N :: s)) with ((rev s ++ [45%N]) ++ [45%N]).
  rewrite <- app_assoc.
  destruct (trimStart_dashes (rev s)) as [l' E].
  change ([45%N] ++ [45%N]) with (lit "--"). rewrite E.
  rewrite rev_app_distr. reflexivity.
Qed.

(* ================================================================== *)
(** ** The scan of [argv] *)
(* ================================================================== *)

Lemma hd_error_nth (A : Type) (l : list A) : hd_error l = nth_error l 0.
Proof. destruct l; reflexivity. Qed.

(** [reaches] in terms of positions: every earlier iteration goes on. *)
Lemma reaches_spec (flags : list jsstring) (flag : jsstring) (i : nat) :
  reaches flags flag i = true <->
  (i <= List.length flags /\
   forall j entry, j < i -> nth_error flags j = Some entry ->
                   examine flag entry (nth_error flags (S j)) = None).
Proof.
  revert flags; induction i as [|i IH]; intros flags; simpl.
  - split; [intros _; split; [lia | intros; lia] | reflexivity].
  - destruct flags as [|entry rest]; simpl.
    + split; [discriminate | intros [H _]; lia].
    + destruct (examine flag entry (hd_error rest)) as [v|] eqn:E.
      * split; [discriminate|]. intros [_ H].
        specialize (H 0 entry ltac:(lia) eq_refl).
        change (nth_error (entry :: rest) 1) with (nth_error rest 0) in H.
        rewrite <- hd_error_nth in H. congruence.
      * rewrite IH. split; intros [Hl H]; (split; [lia|]).
        -- intros [|j] e Hj Hn; simpl in Hn.
           ++ injection Hn as <-.
              change (nth_error (entry :: rest) 1) with (nth_error rest 0).
              now rewrite <- hd_error_nth.
           ++ apply (H j e); [lia | exact Hn].
        -- intros j e Hj Hn. apply (H (S j) e); [lia | exact Hn].
Qed.

(** The iteration at which the scan returns decides the result. *)
Lemma argv_returns_at (flags : list jsstring) (flag : jsstring) (i : nat)
      (entry : jsstring) (v : JsVal) :
  reaches flags flag i = true ->
  nth_error flags i = Some entry ->
  examine flag entry (nth_error flags (S i)) = Some v ->
  argv flags flag = v.
Proof.
  unfold argv. revert flags; induction i as [|i IH]; intros flags Hr Hn He.
  - destruct flags as [|e rest]; [discriminate|].
    injection Hn as ->.
    change (nth_error (entry :: rest) 1) with (nth_error rest 0) in He.
    rewrite <- hd_error_nth in He.
    cbn [argv_loop]. rewrite He. reflexivity.
  - destruct flags as [|e rest]; [discriminate|].
    cbn [reaches] in Hr. cbn [argv_loop].
    destruct (examine flag e (hd_error rest)); [discriminate|].
    apply IH; assumption.
Qed.

(** When no iteration returns, the loop ends and [argv] returns [null]. *)
Lemma argv_falls_through (flags : list jsstring) (flag : jsstring) :
  reaches flags flag (List.length flags) = true -> argv flags flag = JNull.
Proof.
  unfold argv. induction flags as [|e rest IH]; simpl; [reflexivity|].
  destruct (examine flag e (hd_error rest)); [discriminate | exact IH].
Qed.

(** Tokens that do not start with "--" are passed over. *)
Lemma examine_plain (flag entry : jsstring) (next : option jsstring) :
  startsWith entry (lit "--") = false -> examine flag entry next = None.
Proof. unfold examine. intros ->. reflexivity. Qed.

(** So a token that does not start with "--" is ignored, also as a value. *)
Lemma argv_ignores_plain (entry : jsstring) (rest : list jsstring)
      (flag : jsstring) :
  startsWith entry (lit "--") = false ->
  argv (entry :: rest) flag = argv rest flag.
Proof.
  intros H. unfold argv. cbn [argv_loop].
  rewrite examine_plain by assumption. reflexivity.
Qed.

(** A [--key=...] token whose key is not the flag is passed over. *)
Lemma examine_other_key (flag entry : jsstring) (next : option jsstring) :
  includes entry (lit "=") = true ->
  trim (fst (split entry EQUALS)) <> flag ->
  examine flag entry next = None.
Proof.
  unfold examine. intros -> Hk.
  destruct (startsWith entry (lit "--")); [|reflexivity].
  destruct (split entry EQUALS) as [key others]. simpl in Hk.
  rewrite streq_neq by congruence. reflexivity.
Qed.

(** A [--key=...] token whose key is the flag: the piece between the first
    "=" and the next one, if any, decides. *)
Lemma examine_key_value (flag key r : jsstring) (next : option jsstring) :
  startsWith (key ++ EQUALS :: r) (lit "--") = true ->
  ~ In EQUALS key ->
  trim key = flag ->
  examine flag (key ++ EQUALS :: r) next
  = Some (if truthy (fst (split r EQUALS))
          then JString (trim (fst (split r EQUALS)))
          else JNull).
Proof.
  intros Hd Hk Hf. unfold examine. rewrite Hd.
  assert (Hi : includes (key ++ EQUALS :: r) (lit "=") = true).
  { apply (includes_unit _ EQUALS), in_or_app. right. left. reflexivity. }
  rewrite Hi, split_at_first by assumption. simpl nth_error.
  rewrite Hf, streq_refl. reflexivity.
Qed.

(** A token without "=" that is not the flag ends the scan with [false]. *)
Lemma examine_unrelated (flag entry : jsstring) (next : option jsstring) :
  startsWith entry (lit "--") = true ->
  includes entry (lit "=") = false ->
  trim entry <> flag ->
  examine flag entry next = Some (JBool false).
Proof.
  unfold examine. intros -> -> H.
  rewrite streq_neq by congruence. reflexivity.
Qed.

(** A token without "=" that is the flag: the trimmed next token decides. *)
Lemma examine_exact (flag entry : jsstring) (next : option jsstring) :
  startsWith entry (lit "--") = true ->
  includes entry (lit "=") = false ->
  trim entry = flag ->
  examine flag entry next
  = match next with
    | None => Some (JBool true)
    | Some n =>
        if startsWith (trim n) (lit "--") then Some (JBool true)
        else if truthy (trim n) then Some (JString (trim n))
        else None
    end.
Proof.
  unfold examine. intros -> -> ->. rewrite streq_refl.
  destruct next; reflexivity.
Qed.

(** The scan only returns at a matching token or at a token without "=". *)
Lemma examine_returns (flag entry : jsstring) (next : option jsstring)
      (v : JsVal) :
  examine flag entry next = Some v ->
  matched flag entry = true \/ (bare_flag entry = true /\ v = JBool false).
Proof.
  unfold examine, matched, matches_key_value, matches_exact, bare_flag.
  destruct (startsWith entry (lit "--")); [|discriminate].
  destruct (includes entry (lit "=")); simpl.
  - destruct (split entry EQUALS) as [key others]. simpl.
    destruct (streq flag (trim key)); [auto | discriminate].
  - destruct (streq flag (trim entry)); [auto|].
    intros H; injection H as <-. auto.
Qed.

(** Without a match and without a token that has no "=", the scan gets to
    the end of the list. *)
Lemma reaches_end (flags : list jsstring) (flag : jsstring) :
  forallb (fun e => negb (matched flag e)) flags = true ->
  forallb (fun e => negb (bare_flag e)) flags = true ->
  reaches flags flag (List.length flags) = true.
Proof.
  induction flags as [|e rest IH]; simpl; [reflexivity|].
  rewrite !andb_true_iff, !negb_true_iff. intros [Hm Hms] [Hb Hbs].
  destruct (examine flag e (hd_error rest)) as [v|] eqn:E; [|auto].
  destruct (examine_returns _ _ _ E) as [H|[H _]]; congruence.
Qed.

(** What remains of "absent gives null": a list in which the flag is not
    matched and every "--" token carries an "=" yields [null]. *)
Lemma argv_absent_null (flags : list jsstring) (flag : jsstring) :
  forallb (fun e => negb (matched flag e)) flags = true ->
  forallb (fun e => negb (bare_flag e)) flags = true ->
  argv flags flag = JNull.
Proof. intros Hm Hb. apply argv_falls_through, reaches_end; assumption. Qed.

(** C2, as the code has it: when no token of the list matches the flag, by
    the [--key=value] rule or by the exact rule, [argv] returns one of its two
    marks for a flag that is not there: [null], or the boolean [false]. *)
Lemma argv_absent_falsy (flags : list jsstring) (flag : jsstring) :
  forallb (fun e => negb (matched flag e)) flags = true ->
  argv flags flag = JNull \/ argv flags flag = JBool false.
Proof.
  unfold argv. induction flags as [|e rest IH]; simpl; [auto|].
  rewrite andb_true_iff, negb_true_iff. intros [Hm Hms].
  destruct (examine flag e (hd_error rest)) as [v|] eqn:E; [|auto].
  destruct (examine_returns _ _ _ E) as [H|[_ ->]]; [congruence | auto].
Qed.

(* ================================================================== *)
(** ** Results on [argv] *)
(* ================================================================== *)

(** The documented uses. *)
Example argv_port_equals :
  argv (List.map lit ["node"; "server"; "--port=4242"]%string) (lit "--port")
  = JString (lit "4242").
Proof. reflexivity. Qed.

Example argv_port_next :
  argv (List.map lit ["node"; "server"; "--port"; "4242"]%string) (lit "--port")
  = JString (lit "4242").
Proof. reflexivity. Qed.

Example argv_verbose_last :
  argv (List.map lit ["node"; "server"; "--verbose"]%string) (lit "--verbose")
  = JBool true.
Proof. reflexivity. Qed.

Example argv_key_without_value :
  argv (List.map lit ["node"; "server"; "--key="]%string) (lit "--key") = JNull.
Proof. reflexivity. Qed.

Example argv_no_flag_at_all :
  argv (List.map lit ["node"; "server"]%string) (lit "--port") = JNull.
Proof. reflexivity. Qed.

(** A flag followed by a blank token is neither a switch nor a value, and
    the scan goes on. *)
Example argv_blank_next :
  argv (List.map lit ["--port"; " "; "--port=1"]%string) (lit "--port")
  = JString (lit "1").
Proof. reflexivity. Qed.

(** C1 (the scan is meant to go past a "--" token that does not match; the
    code does not): on [--verbose --port 4242] with the flag [--port], the
    second token matches by the exact rule, and without the first token the
    value "4242" is returned, but the scan ends at [--verbose] with [false]. *)
Theorem argv_stops_before_later_match :
  let flags := List.map lit ["--verbose"; "--port"; "4242"]%string in
  matched (lit "--port") (nth 1 flags []) = true
  /\ argv (tl flags) (lit "--port") = JString (lit "4242")
  /\ argv flags (lit "--port") = JBool false.
Proof. repeat split. Qed.

(** C2 as stated fails: on [node server --verbose] no token matches
    [--port] by either rule, and [argv] returns [false], not [null], from the
    branch the source marks "flag wasn't found". *)
Theorem argv_absent_gives_false :
  let flags := List.map lit ["node"; "server"; "--verbose"]%string in
  forallb (fun e => negb (matched (lit "--port") e)) flags = true
  /\ argv flags (lit "--port") = JBool false
  /\ argv flags (lit "--port") <> JNull.
Proof. repeat split. discriminate. Qed.

Lemma argv_absent_falsy_witness :
  argv (List.map lit ["node"; "server"; "--host=h"; "--verbose"]%string)
       (lit "--port") = JNull
  \/ argv (List.map lit ["node"; "server"; "--host=h"; "--verbose"]%string)
          (lit "--port") = JBool false.
Proof.
  apply (@argv_absent_falsy
           (List.map lit ["node"; "server"; "--host=h"; "--verbose"]%string)
           (lit "--port")).
  reflexivity.
Defined.

(** C9, as the code has it: when the scan gets to a token that starts with
    "--", has no "=" and is not the flag once trimmed (the comparison is
    [flag === entry.trim()]), [argv] returns the boolean [false], an outcome
    besides a string, [true] and [null]. *)
Theorem argv_false_on_unrelated_flag
        (flags : list jsstring) (flag : jsstring) (i : nat)
        (entry : jsstring) :
  reaches flags flag i = true ->
  nth_error flags i = Some entry ->
  startsWith entry (lit "--") = true ->
  includes entry (lit "=") = false ->
  streq flag (trim entry) = false ->
  argv flags flag = JBool false.
Proof.
  intros Hr Hn Hd He Hf.
  apply (argv_returns_at _ _ _ Hr Hn).
  apply examine_unrelated; try assumption.
  intros E. rewrite E, streq_refl in Hf. discriminate.
Qed.

Lemma argv_false_on_unrelated_flag_witness :
  argv (List.map lit ["node"; "--verbose"; "--port"; "4242"]%string)
       (lit "--port")
  = JBool false.
Proof.
  apply (@argv_false_on_unrelated_flag
           (List.map lit ["node"; "--verbose"; "--port"; "4242"]%string)
           (lit "--port") 1 (lit "--verbose"));
    reflexivity.
Defined.

(** C9 as stated fails: the token "--port " (a blank at its end) is not
    the flag "--port", yet it is the flag once trimmed, and [argv] returns
    [true], not [false]. *)
Lemma argv_padded_flag_is_found :
  ~ (forall (flags : list jsstring) (flag : jsstring) (i : nat)
            (entry : jsstring),
        reaches flags flag i = true ->
        nth_error flags i = Some entry ->
        startsWith entry (lit "--") = true ->
        includes entry (lit "=") = false ->
        streq flag entry = false ->
        argv flags flag = JBool false).
Proof.
  intros H.
  specialize (H [lit "--port "] (lit "--port") 0 (lit "--port ")
                eq_refl eq_refl eq_refl eq_refl eq_refl).
  vm_compute in H. discriminate H.
Qed.

(** C6, as the code has it: for a token [--key=value] the scan gets to,
    whose trimmed key is the flag, [argv] returns the trimmed value, except
    that it returns [null] when the value itself, before trimming, is
    empty. *)
Theorem argv_key_value_trimmed
        (flags : list jsstring) (flag : jsstring) (i : nat)
        (key value : jsstring) :
  reaches flags flag i = true ->
  nth_error flags i = Some (key ++ EQUALS :: value) ->
  startsWith (key ++ EQUALS :: value) (lit "--") = true ->
  includes key (lit "=") = false ->
  includes value (lit "=") = false ->
  streq flag (trim key) = true ->
  argv flags flag = if truthy value then JString (trim value) else JNull.
Proof.
  intros Hr Hn Hd Hk Hv Hf.
  apply includes_unit_false in Hk, Hv. apply streq_eq in Hf.
  apply (argv_returns_at _ _ _ Hr Hn).
  rewrite examine_key_value by auto.
  rewrite split_without by assumption. reflexivity.
Qed.

Lemma argv_key_value_trimmed_witness :
  argv (List.map lit ["node"; "server"; "--port= 4242 "]%string) (lit "--port")
  = JString (lit "4242").
Proof.
  apply (@argv_key_value_trimmed
           (List.map lit ["node"; "server"; "--port= 4242 "]%string)
           (lit "--port") 2 (lit "--port") (lit " 4242 "));
    reflexivity.
Defined.

(** C6 as stated fails: the value of [--key= ] is one blank, its trimmed
    value is empty, and [argv] returns the empty string, not [null]. *)
Lemma argv_blank_value_is_not_null :
  ~ (forall (flags : list jsstring) (flag : jsstring) (i : nat)
            (key value : jsstring),
        reaches flags flag i = true ->
        nth_error flags i = Some (key ++ EQUALS :: value) ->
        startsWith (key ++ EQUALS :: value) (lit "--") = true ->
        includes key (lit "=") = false ->
        includes value (lit "=") = false ->
        streq flag (trim key) = true ->
        argv flags flag
        = if truthy (trim value) then JString (trim value) else JNull).
Proof.
  intros H.
  specialize (H [lit "--key= "] (lit "--key") 0 (lit "--key") (lit " ")
                eq_refl eq_refl eq_refl eq_refl eq_refl eq_refl).
  vm_compute in H. discriminate H.
Qed.

(** C10, as the code has it: for a token [--key=v1=v2] the scan gets to,
    whose trimmed key is the flag, the result is made from [v1] alone,
    whatever follows the second "=": the trimmed [v1], or [null] when [v1]
    is empty. *)
Theorem argv_value_cut_at_second_equals
        (flags : list jsstring) (flag : jsstring) (i : nat)
        (key v1 v2 : jsstring) :
  reaches flags flag i = true ->
  nth_error flags i = Some (key ++ EQUALS :: v1 ++ EQUALS :: v2) ->
  startsWith (key ++ EQUALS :: v1 ++ EQUALS :: v2) (lit "--") = true ->
  includes key (lit "=") = false ->
  includes v1 (lit "=") = false ->
  streq flag (trim key) = true ->
  argv flags flag = if truthy v1 then JString (trim v1) else JNull.
Proof.
  intros Hr Hn Hd Hk Hv Hf.
  apply includes_unit_false in Hk, Hv. apply streq_eq in Hf.
  apply (argv_returns_at _ _ _ Hr Hn).
  rewrite examine_key_value by auto.
  rewrite split_at_first by assumption. reflexivity.
Qed.

Lemma argv_value_cut_at_second_equals_witness :
  argv (List.map lit ["node"; "--define=a=b=c"]%string) (lit "--define")
  = JString (lit "a").
Proof.
  apply (@argv_value_cut_at_second_equals
           (List.map lit ["node"; "--define=a=b=c"]%string)
           (lit "--define") 1 (lit "--define") (lit "a") (lit "b=c"));
    reflexivity.
Defined.

(** C10 as stated fails: in [--key==v] the piece between the first "=" and
    the second is the empty string, and [argv] returns [null], not that
    string. *)
Lemma argv_empty_first_value_is_null :
  ~ (forall (flags : list jsstring) (flag : jsstring)
            (key v1 v2 : jsstring),
        In (key ++ EQUALS :: v1 ++ EQUALS :: v2) flags ->
        startsWith (key ++ EQUALS :: v1 ++ EQUALS :: v2) (lit "--") = true ->
        includes key (lit "=") = false ->
        includes v1 (lit "=") = false ->
        streq flag (trim key) = true ->
        argv flags flag = JString v1).
Proof.
  intros H.
  specialize (H [lit "--key==v"] (lit "--key") (lit "--key") [] (lit "v")
                (or_introl eq_refl) eq_refl eq_refl eq_refl eq_refl).
  vm_compute in H. discriminate H.
Qed.

(** C7, as the code has it: for a token without "=" the scan gets to, that
    starts with "--" and is the flag once trimmed: with no next token, or
    with a next token that starts with "--" once trimmed, [argv] returns
    [true]; otherwise, when the trimmed next token is not empty, [argv]
    returns it. *)
Theorem argv_exact_flag
        (flags : list jsstring) (flag : jsstring) (i : nat)
        (entry : jsstring) :
  reaches flags flag i = true ->
  nth_error flags i = Some entry ->
  startsWith entry (lit "--") = true ->
  includes entry (lit "=") = false ->
  streq flag (trim entry) = true ->
  (nth_error flags (S i) = None -> argv flags flag = JBool true)
  /\ (forall next, nth_error flags (S i) = Some next ->
                   startsWith (trim next) (lit "--") = true ->
                   argv flags flag = JBool true)
  /\ (forall next, nth_error flags (S i) = Some next ->
                   startsWith (trim next) (lit "--") = false ->
                   truthy (trim next) = true ->
                   argv flags flag = JString (trim next)).
Proof.
  intros Hr Hn Hd He Hf. apply streq_eq in Hf. symmetry in Hf.
  repeat split.
  - intros Hx. apply (argv_returns_at _ _ _ Hr Hn).
    rewrite examine_exact, Hx by assumption. reflexivity.
  - intros next Hx Hs. apply (argv_returns_at _ _ _ Hr Hn).
    rewrite examine_exact, Hx, Hs by assumption. reflexivity.
  - intros next Hx Hs Ht. apply (argv_returns_at _ _ _ Hr Hn).
    rewrite examine_exact, Hx, Hs, Ht by assumption. reflexivity.
Qed.

Lemma argv_exact_flag_witness :
  argv (List.map lit ["node"; "server"; "--verbose"]%string) (lit "--verbose")
  = JBool true
  /\ argv (List.map lit ["node"; "--verbose"; "--port"; "80"]%string)
          (lit "--verbose")
     = JBool true
  /\ argv (List.map lit ["node"; "server"; "--port"; " 4242 "]%string)
          (lit "--port")
     = JString (lit "4242").
Proof.
  split; [|split].
  - apply (proj1 (@argv_exact_flag
                    (List.map lit ["node"; "server"; "--verbose"]%string)
                    (lit "--verbose") 2 (lit "--verbose")
                    eq_refl eq_refl eq_refl eq_refl eq_refl)).
    reflexivity.
  - apply (proj1 (proj2 (@argv_exact_flag
                    (List.map lit ["node"; "--verbose"; "--port"; "80"]%string)
                    (lit "--verbose") 1 (lit "--verbose")
                    eq_refl eq_refl eq_refl eq_refl eq_refl))
                 (lit "--port"));
      reflexivity.
  - apply (proj2 (proj2 (@argv_exact_flag
                    (List.map lit ["node"; "server"; "--port"; " 4242 "]%string)
                    (lit "--port") 2 (lit "--port")
                    eq_refl eq_refl eq_refl eq_refl eq_refl))
                 (lit " 4242 "));
      reflexivity.
Defined.

(** C7 as stated fails: in [--port " --x"] the next token does not start
    with "--" (it starts with a blank) and is not empty once trimmed, yet
    [argv] returns [true], not the string "--x". *)
Lemma argv_indented_dashes_give_true :
  ~ (forall (flags : list jsstring) (flag : jsstring) (i : nat)
            (entry next : jsstring),
        reaches flags flag i = true ->
        nth_error flags i = Some entry ->
        startsWith entry (lit "--") = true ->
        includes entry (lit "=") = false ->
        streq flag (trim entry) = true ->
        nth_error flags (S i) = Some next ->
        startsWith next (lit "--") = false ->
        truthy (trim next) = true ->
        argv flags flag = JString (trim next)).
Proof.
  intros H.
  specialize (H (List.map lit ["--port"; " --x"]%string) (lit "--port") 0
                (lit "--port") (lit " --x")
                eq_refl eq_refl eq_refl eq_refl eq_refl eq_refl eq_refl
                eq_refl).
  vm_compute in H. discriminate H.
Qed.

(** The first half of C7 holds as it is written: a next token that starts
    with "--" makes the flag a switch. *)
Lemma argv_switch_before_flag
      (flags : list jsstring) (flag : jsstring) (i : nat)
      (entry next : jsstring) :
  reaches flags flag i = true ->
  nth_error flags i = Some entry ->
  startsWith entry (lit "--") = true ->
  includes entry (lit "=") = false ->
  streq flag (trim entry) = true ->
  nth_error flags (S i) = Some next ->
  startsWith next (lit "--") = true ->
  argv flags flag = JBool true.
Proof.
  intros Hr Hn Hd He Hf Hx Hs. apply streq_eq in Hf. symmetry in Hf.
  apply (argv_returns_at _ _ _ Hr Hn).
  rewrite examine_exact, Hx by assumption.
  rewrite startsWith_dashes_trim by assumption. reflexivity.
Qed.

(* ================================================================== *)
(** ** Results on [createStartupScriptCommand] *)
(* ================================================================== *)

Section StartupScriptResults.

Variable isAbsolute : jsstring -> bool.
Variable resolve : jsstring -> jsstring -> jsstring.
Variable existsSync : jsstring -> bool.
Variable cwd : jsstring.

Local Abbreviation command :=
  (createStartupScriptCommand isAbsolute resolve existsSync cwd).

(** Every reference with a ":" is a binary without ":", the first ":" and
    a script portion. *)
Lemma reference_with_colon (startupScript : jsstring) :
  includes startupScript (lit ":") = true ->
  exists bin script,
    startupScript = bin ++ COLON :: script
    /\ includes bin (lit ":") = false.
Proof.
  intros H. apply (includes_unit _ COLON) in H.
  destruct (first_separator _ _ H) as (a & b & E & Ha).
  exists a, b. split; [exact E|]. now apply includes_unit_false.
Qed.

(** The pieces after the first one, joined with ":" again, are the script
    portion as it was written. *)
Lemma script_portion (bin script : jsstring) :
  includes bin (lit ":") = false ->
  fst (split (bin ++ COLON :: script) COLON) = bin
  /\ join (snd (split (bin ++ COLON :: script) COLON)) (lit ":") = script.
Proof.
  intros H. apply includes_unit_false in H.
  rewrite split_at_first by assumption. split; [reflexivity|].
  apply join_split.
Qed.

Lemma includes_colon (bin script : jsstring) :
  includes (bin ++ COLON :: script) (lit ":") = true.
Proof. apply (includes_unit _ COLON), in_or_app. right. left. reflexivity. Qed.

(** C5: a reference [bin:script], split at every ":", has [bin] as its
    first piece and [script] as the others joined with ":" again; for npm
    and yarn the command is "<bin> run <script> --if-present", for npx it is
    "npx <script>".  No call of the logger is made. *)
Theorem createStartupScriptCommand_package_manager
        (bin script : jsstring) (options : SWACLIConfig)
        (log : list LogCall) :
  includes bin (lit ":") = false ->
  (fst (split (bin ++ COLON :: script) COLON) = bin
   /\ join (snd (split (bin ++ COLON :: script) COLON)) (lit ":") = script)
  /\ (bin = lit "npm" \/ bin = lit "yarn" ->
      command (bin ++ COLON :: script) options log
      = (Some (bin ++ lit " run " ++ script ++ lit " --if-present"), log))
  /\ (bin = lit "npx" ->
      command (bin ++ COLON :: script) options log
      = (Some (lit "npx " ++ script), log)).
Proof.
  intros H. destruct (@script_portion bin script H) as [Hb Hs].
  split; [split; assumption|].
  unfold command, createStartupScriptCommand.
  rewrite includes_colon.
  destruct (split (bin ++ COLON :: script) COLON) as [b parts].
  simpl in Hb, Hs. subst b. rewrite Hs.
  split.
  - intros [-> | ->]; reflexivity.
  - intros ->. reflexivity.
Qed.

(** C8: a reference [bin:script] whose [bin] is none of npm, yarn and npx
    gives [null], and no call of the logger is made. *)
Theorem createStartupScriptCommand_unknown_binary
        (bin script : jsstring) (options : SWACLIConfig)
        (log : list LogCall) :
  includes bin (lit ":") = false ->
  arrayIncludes [lit "npm"; lit "yarn"; lit "npx"] bin = false ->
  command (bin ++ COLON :: script) options log = (None, log).
Proof.
  intros H Hn. destruct (@script_portion bin script H) as [Hb _].
  unfold command, createStartupScriptCommand.
  rewrite includes_colon.
  destruct (split (bin ++ COLON :: script) COLON) as [b parts].
  simpl in Hb. subst b.
  unfold arrayIncludes in *. simpl in *.
  rewrite !orb_false_r in *.
  apply orb_false_iff in Hn as [Hnpm Hn].
  apply orb_false_iff in Hn as [Hyarn Hnpx].
  rewrite Hnpm, Hyarn, Hnpx. reflexivity.
Qed.

(** C3: a reference without ":" is a path; when it is not absolute it is
    resolved against [appLocation], or against the working directory when
    [appLocation] is not set (or is the empty string, which [||] takes as
    not set).  If that path exists it is returned, and it is absolute as
    far as [path.resolve] only gives absolute paths; if it does not exist,
    the result is [null] and the log has grown by exactly one call of
    [logger.error], with the fatal flag [true]. *)
Theorem createStartupScriptCommand_path
        (startupScript : jsstring) (options : SWACLIConfig)
        (log : list LogCall) :
  includes startupScript (lit ":") = false ->
  let base := match appLocation options with
              | Some a => if truthy a then a else cwd
              | None => cwd
              end in
  let path := if isAbsolute startupScript then startupScript
              else resolve base startupScript in
  ((forall b x, isAbsolute (resolve b x) = true) -> isAbsolute path = true)
  /\ (existsSync path = true ->
      command startupScript options log = (Some path, log))
  /\ (existsSync path = false ->
      command startupScript options log
      = (None,
         log ++ [mkLogCall (lit "Script file " ++ [QUOTE] ++ path
                            ++ [QUOTE] ++ lit " was not found.") true])).
Proof.
  intros H base path.
  assert (Hp : resolved isAbsolute resolve cwd startupScript options = path).
  { unfold resolved, path, base, baseDirectory.
    destruct (isAbsolute startupScript); reflexivity. }
  unfold command, createStartupScriptCommand. rewrite H, Hp.
  repeat split.
  - intros Habs. unfold path.
    destruct (isAbsolute startupScript) eqn:E; [exact E | apply Habs].
  - intros ->. reflexivity.
  - intros ->. reflexivity.
Qed.

End StartupScriptResults.

(** The stand-in for [path.resolve] only gives absolute paths. *)
Lemma posixResolve_absolute (b x : jsstring) :
  posixIsAbsolute (posixResolve b x) = true.
Proof.
  unfold posixResolve.
  destruct (posixIsAbsolute x) eqn:Ex; [exact Ex|].
  destruct (posixIsAbsolute b) eqn:Eb; [|reflexivity].
  unfold posixIsAbsolute in *.
  destruct b as [|c b]; [discriminate|].
  simpl in *. exact Eb.
Qed.

(** The documented uses. *)
Example startup_npm_build :
  createStartupScriptCommand posixIsAbsolute posixResolve (filesOf [])
                             (lit "/work") (lit "npm:build") (mkConfig None) []
  = (Some (lit "npm run build --if-present"), []).
Proof. reflexivity. Qed.

Example startup_npx_vite :
  createStartupScriptCommand posixIsAbsolute posixResolve (filesOf [])
                             (lit "/work") (lit "npx:vite") (mkConfig None) []
  = (Some (lit "npx vite"), []).
Proof. reflexivity. Qed.

Example startup_absolute_path :
  createStartupScriptCommand posixIsAbsolute posixResolve
                             (filesOf [lit "/srv/run.sh"])
                             (lit "/work") (lit "/srv/run.sh")
                             (mkConfig (Some (lit "/app"))) []
  = (Some (lit "/srv/run.sh"), []).
Proof. reflexivity. Qed.

Lemma createStartupScriptCommand_package_manager_witness :
  let command :=
    createStartupScriptCommand posixIsAbsolute posixResolve (filesOf [])
                               (lit "/work") in
  command (lit "npm:test:unit") (mkConfig None) []
  = (Some (lit "npm run test:unit --if-present"), [])
  /\ command (lit "yarn:build") (mkConfig None) []
     = (Some (lit "yarn run build --if-present"), [])
  /\ command (lit "npx:vite") (mkConfig None) []
     = (Some (lit "npx vite"), []).
Proof.
  split; [|split].
  - apply (proj1 (proj2 (@createStartupScriptCommand_package_manager
                           posixIsAbsolute posixResolve (filesOf [])
                           (lit "/work") (lit "npm") (lit "test:unit")
                           (mkConfig None) [] eq_refl))).
    left. reflexivity.
  - apply (proj1 (proj2 (@createStartupScriptCommand_package_manager
                           posixIsAbsolute posixResolve (filesOf [])
                           (lit "/work") (lit "yarn") (lit "build")
                           (mkConfig None) [] eq_refl))).
    right. reflexivity.
  - apply (proj2 (proj2 (@createStartupScriptCommand_package_manager
                           posixIsAbsolute posixResolve (filesOf [])
                           (lit "/work") (lit "npx") (lit "vite")
                           (mkConfig None) [] eq_refl))).
    reflexivity.
Defined.

Lemma createStartupScriptCommand_unknown_binary_witness :
  createStartupScriptCommand posixIsAbsolute posixResolve (filesOf [])
                             (lit "/work") (lit "node:server.js")
                             (mkConfig None) []
  = (None, []).
Proof.
  apply (@createStartupScriptCommand_unknown_binary
           posixIsAbsolute posixResolve (filesOf []) (lit "/work")
           (lit "node") (lit "server.js") (mkConfig None) []);
    reflexivity.
Defined.

Lemma createStartupScriptCommand_path_witness :
  let command :=
    createStartupScriptCommand posixIsAbsolute posixResolve
                               (filesOf [lit "/app/dist/server.js"])
                               (lit "/work") in
  command (lit "dist/server.js") (mkConfig (Some (lit "/app"))) []
  = (Some (lit "/app/dist/server.js"), [])
  /\ command (lit "missing.js") (mkConfig None) []
     = (None,
        [mkLogCall (lit "Script file " ++ [QUOTE] ++ lit "/work/missing.js"
                    ++ [QUOTE] ++ lit " was not found.") true]).
Proof.
  split.
  - apply (proj1 (proj2 (@createStartupScriptCommand_path
                           posixIsAbsolute posixResolve
                           (filesOf [lit "/app/dist/server.js"])
                           (lit "/work") (lit "dist/server.js")
                           (mkConfig (Some (lit "/app"))) [] eq_refl))).
    reflexivity.
  - apply (proj2 (proj2 (@createStartupScriptCommand_path
                           posixIsAbsolute posixResolve
                           (filesOf [lit "/app/dist/server.js"])
                           (lit "/work") (lit "missing.js")
                           (mkConfig None) [] eq_refl))).
    reflexivity.
Defined.

(* ================================================================== *)
(** ** Results on [registerProcessExit] *)
(* ================================================================== *)

(** One callback, three triggers: one call. *)
Example exit_hook_three_triggers :
  option_map trace
    (run 1 [Register Return; Fire SIGINT; Fire SIGTERM; Fire EXIT] initial)
  = Some [Invoked 0; GuardSet 0].
Proof. reflexivity. Qed.

(** A callback that emits "exit" itself comes back to its own wrapper,
    finds the guard set and is not called again. *)
Example exit_hook_reentrant :
  option_map trace
    (run 1 [Register (Emit EXIT (Emit SIGINT Return)); Fire SIGTERM;
            Fire EXIT] initial)
  = Some [Invoked 0; GuardSet 0].
Proof. reflexivity. Qed.

(** Two registrations have a guard each; the first callback emits "exit"
    and so has the second one called inside it. *)
Example exit_hook_two_registrations :
  option_map trace
    (run 2 [Register (Emit EXIT Return); Register Throw; Fire SIGINT;
            Fire EXIT] initial)
  = Some [Invoked 1; GuardSet 1; Invoked 0; GuardSet 0].
Proof. reflexivity. Qed.

Lemma nth_error_set_terminated (cs : list Closure) (id j : nat) :
  nth_error (set_terminated id cs) j
  = if Nat.eqb j id
    then option_map (fun c => mkClosure (fn c) true) (nth_error cs j)
    else nth_error cs j.
Proof.
  revert id j; induction cs as [|c cs IH]; intros id j.
  - simpl. destruct id, j; simpl; try reflexivity;
      destruct (Nat.eqb j id); reflexivity.
  - destruct id as [|id], j as [|j]; simpl; try reflexivity. apply IH.
Qed.

Lemma live_set_terminated (cs : list Closure) (id : nat) (c : Closure) :
  nth_error cs id = Some c -> terminated c = false ->
  S (live_closures (set_terminated id cs)) = live_closures cs.
Proof.
  revert id; induction cs as [|c0 cs IH]; intros id Hn Ht.
  - destruct id; discriminate.
  - destruct id as [|id]; simpl in *.
    + injection Hn as ->. rewrite Ht. reflexivity.
    + rewrite <- (IH id Hn Ht). lia.
Qed.

Lemma live_closures_app (a b : list Closure) :
  live_closures (a ++ b) = live_closures a + live_closures b.
Proof. induction a as [|c a IH]; simpl; [reflexivity | rewrite IH; lia]. Qed.

(** The first step of a wrapper whose guard is [false]: the guard is set,
    then the call is recorded. *)
Lemma one_shot_enter (id : nat) (p : Process) (c : Closure) :
  nth_error (closures p) id = Some c -> terminated c = false ->
  one_shot p ->
  one_shot (record_call id (assign_terminated id p))
  /\ S (live (record_call id (assign_terminated id p))) = live p.
Proof.
  intros Hn Ht [Hc Hg]. split; [split|].
  - intros j. specialize (Hc j). unfold guard in *.
    cbn [record_call assign_terminated trace closures calls].
    rewrite nth_error_set_terminated.
    destruct (Nat.eqb_spec j id) as [->|Hj].
    + rewrite Hn in *. rewrite Ht in Hc. simpl. rewrite Nat.eqb_refl. lia.
    + apply Nat.eqb_neq in Hj. cbn [calls]. rewrite Nat.eqb_sym, Hj. exact Hc.
  - simpl. auto.
  - unfold live. simpl. eapply live_set_terminated; eassumption.
Qed.

Lemma call_all_well_behaved (n : nat) (w : nat -> Exec) :
  well_behaved n w ->
  forall ids p,
    live p <= n -> one_shot p ->
    exists r p', call_all w ids p = Some (r, p')
                 /\ one_shot p' /\ live p' <= live p.
Proof.
  intros Hw. induction ids as [|id ids IH]; intros p Hl Hi; simpl.
  - exists Normal, p. auto.
  - unfold andThen.
    destruct (Hw id p Hl Hi) as (r & p1 & -> & Hi1 & Hl1).
    destruct r.
    + destruct (IH p1 ltac:(lia) Hi1) as (r2 & p2 & -> & Hi2 & Hl2).
      exists r2, p2. split; [reflexivity | split; [assumption | lia]].
    + exists Thrown, p1. auto.
Qed.

Lemma run_callback_well_behaved (n : nat) (w : nat -> Exec) :
  well_behaved n w ->
  forall k p,
    live p <= n -> one_shot p ->
    exists r p', run_callback w k p = Some (r, p')
                 /\ one_shot p' /\ live p' <= live p.
Proof.
  intros Hw. induction k as [| |c k IH]; intros p Hl Hi; simpl.
  - exists Normal, p. auto.
  - exists Thrown, p. auto.
  - unfold andThen.
    destruct (@call_all_well_behaved n w Hw (listeners c p) p Hl Hi)
      as (r & p1 & -> & Hi1 & Hl1).
    destruct r.
    + destruct (IH p1 ltac:(lia) Hi1) as (r2 & p2 & -> & Hi2 & Hl2).
      exists r2, p2. split; [reflexivity | split; [assumption | lia]].
    + exists Thrown, p1. auto.
Qed.

(** With as much depth as there are live closures, a wrapper ends: every
    nested call of an [fn] uses up a closure whose guard was [false]. *)
Lemma wrapper_well_behaved (depth : nat) : well_behaved depth (wrapper depth).
Proof.
  induction depth as [|d IH]; intros id p Hl Hi; simpl;
    destruct (nth_error (closures p) id) as [c|] eqn:Hn;
    try (exists Normal, p; auto; fail);
    destruct (terminated c) eqn:Ht; simpl;
    try (exists Normal, p; auto; fail);
    destruct (@one_shot_enter id p c Hn Ht Hi) as [Hi1 Hl1].
  - lia.
  - destruct (@run_callback_well_behaved d (wrapper d) IH (fn c)
                (record_call id (assign_terminated id p))
                ltac:(lia) Hi1) as (r & p2 & E & Hi2 & Hl2).
    exists r, p2. split; [exact E | split; [assumption | lia]].
Qed.

Lemma one_shot_initial : one_shot initial.
Proof. split; [intros id; unfold guard; destruct id; simpl; lia | exact I]. Qed.

Lemma one_shot_register (f : Callback) (p : Process) :
  one_shot p ->
  one_shot (registerProcessExit f p)
  /\ live (registerProcessExit f p) = S (live p).
Proof.
  intros [Hc Hg]. split; [split|].
  - intros id. specialize (Hc id). unfold guard in *. simpl.
    destruct (Nat.lt_ge_cases id (List.length (closures p))) as [Hlt|Hge].
    + rewrite nth_error_app1 by assumption. exact Hc.
    + assert (Hnone : nth_error (closures p) id = None)
        by (apply nth_error_None; assumption).
      rewrite Hnone in Hc.
      rewrite nth_error_app2 by assumption.
      destruct (id - List.length (closures p)) as [|[|m]]; simpl; lia.
  - exact Hg.
  - unfold live. simpl. rewrite live_closures_app. simpl. lia.
Qed.

Lemma run_one_shot (depth : nat) (acts : list Action) :
  forall p,
    one_shot p -> live p + registrations acts <= depth ->
    exists p', run depth acts p = Some p' /\ one_shot p'.
Proof.
  induction acts as [|[f|c] acts IH]; intros p Hi Hl; simpl in *.
  - exists p. auto.
  - destruct (@one_shot_register f p Hi) as [Hi1 Hl1].
    apply IH; [assumption | lia].
  - unfold emit.
    destruct (@call_all_well_behaved depth (wrapper depth)
                (@wrapper_well_behaved depth) (listeners c p) p
                ltac:(lia) Hi)
      as (r & p1 & -> & Hi1 & Hl1).
    apply IH; [assumption | lia].
Qed.

(** C4: after any sequence of registrations and termination triggers, run
    with a depth of at least the number of registrations, the process ends
    in a state where the [fn] of every wrapper was called at most once, and
    where every call of an [fn] comes right after [terminated = true] was
    assigned in its own wrapper. *)
Theorem registerProcessExit_at_most_once (acts : list Action) (extra : nat) :
  exists p,
    run (registrations acts + extra) acts initial = Some p
    /\ (forall id, calls id (trace p) <= 1)
    /\ guard_first (trace p).
Proof.
  destruct (@run_one_shot (registrations acts + extra) acts initial
              one_shot_initial) as (p & E & Hc & Hg).
  { unfold live. simpl. lia. }
  exists p. repeat split; try assumption.
  intros id. specialize (Hc id). destruct (guard id p); lia.
Qed.


(* ================================================================== *)
(** ** More on [trim] and [split] *)
(* ================================================================== *)

Unset Implicit Arguments.

Lemma trimStart_In (c : code_unit) (s : jsstring) :
  In c (trimStart s) -> In c s.
Proof.
  induction s as [|x s IH]; simpl; [tauto|].
  destruct (isWhiteSpace x); simpl; tauto.
Qed.

(** [trim] only removes code units. *)
Lemma trim_In (c : code_unit) (s : jsstring) : In c (trim s) -> In c s.
Proof.
  unfold trim, trimEnd. intros H.
  apply in_rev, trimStart_In in H. apply in_rev in H.
  now apply trimStart_In.
Qed.

Lemma trimStart_clean (s : jsstring) : clean_start (trimStart s) = true.
Proof.
  induction s as [|x s IH]; simpl; [reflexivity|].
  destruct (isWhiteSpace x) eqn:E; [exact IH | simpl; now rewrite E].
Qed.

Lemma trimStart_fixed (s : jsstring) :
  clean_start s = true -> trimStart s = s.
Proof.
  destruct s as [|x s]; simpl; [reflexivity|].
  destruct (isWhiteSpace x); [discriminate | reflexivity].
Qed.

Lemma trimStart_keeps_last (l : jsstring) (c : code_unit) :
  isWhiteSpace c = false -> exists l', trimStart (l ++ [c]) = l' ++ [c].
Proof.
  intros Hc. induction l as [|x l [l' IH]]; simpl.
  - exists []. now rewrite Hc.
  - destruct (isWhiteSpace x).
    + exists l'. exact IH.
    + exists (x :: l). reflexivity.
Qed.

Lemma trimEnd_clean (s : jsstring) :
  clean_start s = true -> clean_start (trimEnd s) = true.
Proof.
  unfold trimEnd. destruct s as [|c s]; [reflexivity|].
  simpl. intros Hc. apply negb_true_iff in Hc.
  destruct (trimStart_keeps_last (rev s) c Hc) as [l' E].
  rewrite E, rev_app_distr. simpl. now rewrite Hc.
Qed.

(** A trimmed string is left as it is by [trim]. *)
Lemma trim_trim (s : jsstring) : trim (trim s) = trim s.
Proof.
  assert (H1 : clean_start (trim s) = true)
    by (apply trimEnd_clean, trimStart_clean).
  assert (H2 : clean_start (rev (trim s)) = true).
  { unfold trim, trimEnd. rewrite rev_involutive. apply trimStart_clean. }
  unfold trim at 1. rewrite (trimStart_fixed _ H1).
  unfold trimEnd. rewrite (trimStart_fixed _ H2). apply rev_involutive.
Qed.

(** A string of blanks only does not start with "--". *)
Lemma blank_not_dashes (s : jsstring) :
  trim s = [] -> startsWith s (lit "--") = false.
Proof.
  intros H. destruct (startsWith s (lit "--")) eqn:E; [|reflexivity].
  apply startsWith_dashes_trim in E. rewrite H in E. discriminate.
Qed.

(** The first piece of a split has no separator in it. *)
Lemma split_first_piece (s : jsstring) (sep : code_unit) :
  ~ In sep (fst (split s sep)).
Proof.
  induction s as [|x s IH]; simpl; [tauto|].
  destruct (split s sep) as [h t]. simpl in IH.
  destruct (N.eqb_spec x sep) as [->|Hx]; simpl; [tauto|].
  intros [H|H]; [congruence | tauto].
Qed.

(** The key of a token that starts with "--" starts with "--" too. *)
Lemma split_key_dashes (entry : jsstring) :
  startsWith entry (lit "--") = true ->
  startsWith (fst (split entry EQUALS)) (lit "--") = true.
Proof.
  intros H. destruct entry as [|a [|b r]]; simpl in H; try discriminate.
  { rewrite andb_false_r in H. discriminate. }
  apply andb_true_iff in H as [Ha H]. apply andb_true_iff in H as [Hb _].
  apply N.eqb_eq in Ha, Hb. subst a b.
  cbn [split]. destruct (split r EQUALS) as [h t]. reflexivity.
Qed.

(* ================================================================== *)
(** ** More on [argv]: what a result tells about the arguments *)
(* ================================================================== *)

Lemma examine_passed_over (flag entry : jsstring) (next : option jsstring) :
  passed_over flag entry = true -> examine flag entry next = None.
Proof.
  unfold passed_over. intros H. apply orb_true_iff in H as [H|H].
  - apply examine_plain. now apply negb_true_iff.
  - apply andb_true_iff in H as [Hi Hk]. apply negb_true_iff in Hk.
    apply examine_other_key; [exact Hi|].
    intros E. rewrite E, streq_refl in Hk. discriminate.
Qed.

(** What each kind of result of one iteration says about its token. *)
Lemma examine_found (flag entry : jsstring) (next : option jsstring)
      (v : JsVal) :
  examine flag entry next = Some v -> found v = true ->
  matched flag entry = true.
Proof.
  intros E Hv. destruct (examine_returns _ _ _ E) as [H|[_ ->]];
    [exact H | discriminate].
Qed.

Lemma examine_string (flag entry : jsstring) (next : option jsstring)
      (s : jsstring) :
  examine flag entry next = Some (JString s) -> trim s = s.
Proof.
  unfold examine.
  destruct (startsWith entry (lit "--")); [|discriminate].
  destruct (includes entry (lit "=")).
  - destruct (split entry EQUALS) as [key others].
    destruct (streq flag (trim key)); [|discriminate].
    destruct (nth_error others 0) as [v|]; [|discriminate].
    destruct (truthy v); [|discriminate].
    intros H. injection H as <-. apply trim_trim.
  - destruct (streq flag (trim entry)); [|discriminate].
    destruct next as [n|]; cbn [option_map]; [|discriminate].
    destruct (startsWith (trim n) (lit "--")); [discriminate|].
    destruct (truthy (trim n)); [|discriminate].
    intros H. injection H as <-. apply trim_trim.
Qed.

Lemma examine_false (flag entry : jsstring) (next : option jsstring) :
  examine flag entry next = Some (JBool false) ->
  bare_flag entry = true /\ streq flag (trim entry) = false.
Proof.
  unfold examine, bare_flag.
  destruct (startsWith entry (lit "--")); [|discriminate].
  destruct (includes entry (lit "=")).
  - destruct (split entry EQUALS) as [key others].
    destruct (streq flag (trim key)); [|discriminate].
    destruct (nth_error others 0) as [v|]; [|discriminate].
    destruct (truthy v); discriminate.
  - destruct (streq flag (trim entry)); [|auto].
    destruct next as [n|]; cbn [option_map]; [|discriminate].
    destruct (startsWith (trim n) (lit "--")); [discriminate|].
    destruct (truthy (trim n)); discriminate.
Qed.

(** The result of the loop comes from one of its iterations. *)
Lemma argv_loop_source (flags : list jsstring) (flag : jsstring) :
  argv_loop flags flag = JNull
  \/ exists entry next,
       In entry flags
       /\ examine flag entry next = Some (argv_loop flags flag).
Proof.
  induction flags as [|e rest IH]; [left; reflexivity|].
  cbn [argv_loop].
  destruct (examine flag e (hd_error rest)) as [v|] eqn:E.
  - right. exists e, (hd_error rest). split; [left; reflexivity | exact E].
  - destruct IH as [IH | (entry & next & Hin & Hex)]; [left; exact IH|].
    right. exists entry, next. split; [right; exact Hin | exact Hex].
Qed.

(** A flag that a token matches starts with "--", has no "=" and no blanks
    around it. *)
Lemma matched_flag_shape (flag entry : jsstring) :
  matched flag entry = true ->
  startsWith flag (lit "--") = true
  /\ includes flag (lit "=") = false
  /\ trim flag = flag.
Proof.
  unfold matched, matches_key_value, matches_exact. intros H.
  apply orb_true_iff in H as [H|H];
    apply andb_true_iff in H as [H Hf];
    apply andb_true_iff in H as [Hd Hi];
    apply streq_eq in Hf; subst flag.
  - split; [|split].
    + apply startsWith_dashes_trim, split_key_dashes, Hd.
    + apply includes_unit_false. intros Hin. apply trim_In in Hin.
      exact (split_first_piece entry EQUALS Hin).
    + apply trim_trim.
  - apply negb_true_iff in Hi. split; [|split].
    + apply startsWith_dashes_trim, Hd.
    + apply includes_unit_false. intros Hin. apply trim_In in Hin.
      apply (includes_unit_false entry EQUALS) in Hi. contradiction.
    + apply trim_trim.
Qed.

(** X1: tokens that do not start with "--", and [--key=...] tokens with
    another key, never end the scan: a run of them in front of the arguments
    (as "node" and the script path are) changes nothing. *)
Theorem argv_skips_passed_over
        (pre rest : list jsstring) (flag : jsstring) :
  forallb (passed_over flag) pre = true ->
  argv (pre ++ rest) flag = argv rest flag.
Proof.
  unfold argv. induction pre as [|e pre IH]; simpl; [reflexivity|].
  intros H. apply andb_true_iff in H as [He Hpre].
  rewrite examine_passed_over by exact He. apply IH, Hpre.
Qed.

Lemma argv_skips_passed_over_witness :
  argv (List.map lit ["node"; "server.js"; "--host=h"; "--port"; "80"]%string)
       (lit "--port")
  = argv (List.map lit ["--port"; "80"]%string) (lit "--port").
Proof.
  apply (argv_skips_passed_over
           (List.map lit ["node"; "server.js"; "--host=h"]%string)
           (List.map lit ["--port"; "80"]%string) (lit "--port")).
  reflexivity.
Defined.

(** X2: [argv] never makes a flag up: when it returns [true] or a string,
    some token of the list matches the flag, by the [--key=value] rule or by
    the exact rule. *)
Theorem argv_found_means_matched (flags : list jsstring) (flag : jsstring) :
  found (argv flags flag) = true ->
  exists entry, In entry flags /\ matched flag entry = true.
Proof.
  unfold argv. intros Hf.
  destruct (argv_loop_source flags flag) as [E | (entry & next & Hin & Hex)].
  - rewrite E in Hf. discriminate.
  - exists entry. split; [exact Hin|].
    exact (examine_found flag entry next _ Hex Hf).
Qed.

Lemma argv_found_means_matched_witness :
  exists entry,
    In entry (List.map lit ["node"; "--port = 1"]%string)
    /\ matched (lit "--port") entry = true.
Proof.
  apply (argv_found_means_matched
           (List.map lit ["node"; "--port = 1"]%string) (lit "--port")).
  reflexivity.
Defined.

(** X3: a flag name is only ever found when it starts with "--", has no "="
    in it and no blanks around it; asked for "port", "--port " or "--a=b",
    [argv] returns [null] or [false] whatever the arguments are. *)
Theorem argv_found_needs_proper_flag
        (flags : list jsstring) (flag : jsstring) :
  found (argv flags flag) = true ->
  startsWith flag (lit "--") = true
  /\ includes flag (lit "=") = false
  /\ trim flag = flag.
Proof.
  unfold argv. intros Hf.
  destruct (argv_loop_source flags flag) as [E | (entry & next & _ & Hex)].
  - rewrite E in Hf. discriminate.
  - apply (matched_flag_shape flag entry).
    exact (examine_found flag entry next _ Hex Hf).
Qed.

Lemma argv_found_needs_proper_flag_witness :
  startsWith (lit "--port") (lit "--") = true
  /\ includes (lit "--port") (lit "=") = false
  /\ trim (lit "--port") = lit "--port".
Proof.
  apply (argv_found_needs_proper_flag
           (List.map lit ["node"; "--port"; "80"]%string) (lit "--port")).
  reflexivity.
Defined.

(** X4: a string that [argv] returns has no blanks around it, be it taken
    from [--key=value] or from the next token. *)
Theorem argv_string_is_trimmed
        (flags : list jsstring) (flag s : jsstring) :
  argv flags flag = JString s -> trim s = s.
Proof.
  unfold argv. intros H.
  destruct (argv_loop_source flags flag) as [E | (entry & next & _ & Hex)].
  - rewrite E in H. discriminate.
  - rewrite H in Hex. exact (examine_string flag entry next s Hex).
Qed.

Lemma argv_string_is_trimmed_witness : trim (lit "80") = lit "80".
Proof.
  apply (argv_string_is_trimmed
           (List.map lit ["node"; "--port"; "  80 "]%string) (lit "--port")).
  reflexivity.
Defined.

(** X5: a flag followed by a token of blanks only is taken neither as a
    switch nor with a value: the scan goes on after the blank token, as if
    the two were not there. *)
Theorem argv_blank_after_flag
        (entry next : jsstring) (rest : list jsstring) (flag : jsstring) :
  startsWith entry (lit "--") = true ->
  includes entry (lit "=") = false ->
  streq flag (trim entry) = true ->
  trim next = [] ->
  argv (entry :: next :: rest) flag = argv rest flag.
Proof.
  intros Hd Hi Hf Hb. apply streq_eq in Hf. symmetry in Hf.
  unfold argv. cbn [argv_loop hd_error].
  rewrite (@examine_exact flag entry (Some next) Hd Hi Hf), Hb.
  change (startsWith [] (lit "--")) with false. cbn [truthy argv_loop].
  rewrite examine_plain by (apply blank_not_dashes, Hb). reflexivity.
Qed.

Lemma argv_blank_after_flag_witness :
  argv (List.map lit ["--port"; "  "; "node"]%string) (lit "--port")
  = argv [lit "node"] (lit "--port").
Proof.
  apply (argv_blank_after_flag (lit "--port") (lit "  ") [lit "node"]
                               (lit "--port"));
    reflexivity.
Defined.

(** X6: [false] is only returned at a token that starts with "--", has no
    "=" and is another flag than the one asked for. *)
Theorem argv_false_means_other_flag
        (flags : list jsstring) (flag : jsstring) :
  argv flags flag = JBool false ->
  exists entry,
    In entry flags
    /\ startsWith entry (lit "--") = true
    /\ includes entry (lit "=") = false
    /\ streq flag (trim entry) = false.
Proof.
  unfold argv. intros H.
  destruct (argv_loop_source flags flag) as [E | (entry & next & Hin & Hex)].
  - rewrite E in H. discriminate.
  - rewrite H in Hex. destruct (examine_false flag entry next Hex) as [Hb Hf].
    unfold bare_flag in Hb. apply andb_true_iff in Hb as [Hd Hi].
    apply negb_true_iff in Hi.
    exists entry. auto.
Qed.

Lemma argv_false_means_other_flag_witness :
  exists entry,
    In entry (List.map lit ["node"; "--verbose"; "--port=1"]%string)
    /\ startsWith entry (lit "--") = true
    /\ includes entry (lit "=") = false
    /\ streq (lit "--port") (trim entry) = false.
Proof.
  apply (argv_false_means_other_flag
           (List.map lit ["node"; "--verbose"; "--port=1"]%string)
           (lit "--port")).
  reflexivity.
Defined.

(** X7: when the scan returns before it gets to the last token, tokens put
    after the list do not change the result. *)
Theorem argv_unchanged_by_later_tokens
        (flags more : list jsstring) (flag : jsstring) :
  reaches flags flag (List.length flags - 1) = false ->
  argv (flags ++ more) flag = argv flags flag.
Proof.
  unfold argv. induction flags as [|e rest IH]; [discriminate|].
  destruct rest as [|e2 rest]; [discriminate|].
  intros H. change (List.length (e :: e2 :: rest) - 1)
    with (S (List.length rest)) in H.
  cbn [reaches hd_error] in H.
  change ((e :: e2 :: rest) ++ more) with (e :: (e2 :: rest) ++ more).
  cbn [argv_loop]. change (hd_error ((e2 :: rest) ++ more)) with (Some e2).
  cbn [hd_error].
  destruct (examine flag e (Some e2)); [reflexivity|].
  apply IH. simpl. rewrite Nat.sub_0_r. exact H.
Qed.

Lemma argv_unchanged_by_later_tokens_witness :
  argv (List.map lit ["node"; "--port"; "80"]%string
        ++ List.map lit ["--port=90"; "x"]%string) (lit "--port")
  = argv (List.map lit ["node"; "--port"; "80"]%string) (lit "--port").
Proof.
  apply (argv_unchanged_by_later_tokens
           (List.map lit ["node"; "--port"; "80"]%string)
           (List.map lit ["--port=90"; "x"]%string) (lit "--port")).
  reflexivity.
Defined.

(* ================================================================== *)
(** ** More on [registerProcessExit]: when the callbacks do run *)
(* ================================================================== *)

Lemma follows_refl (p : Process) : follows p p.
Proof. unfold follows. auto. Qed.

Lemma follows_trans (p q r : Process) :
  follows p q -> follows q r -> follows p r.
Proof.
  intros (L1 & F1 & G1 & A1) (L2 & F2 & G2 & A2).
  split; [|split; [|split]].
  - intros c. now rewrite L2, L1.
  - now rewrite F2, F1.
  - auto.
  - auto.
Qed.

Lemma follows_length (p p' : Process) :
  follows p p' -> List.length (closures p') = List.length (closures p).
Proof.
  intros (_ & F & _). apply (f_equal (@List.length _)) in F.
  now rewrite !length_map in F.
Qed.

Lemma follows_all_return (p p' : Process) :
  follows p p' -> all_return p' = all_return p.
Proof. intros (_ & F & _). unfold all_return. now rewrite F. Qed.

Lemma map_fn_set_terminated (id : nat) (cs : list Closure) :
  List.map fn (set_terminated id cs) = List.map fn cs.
Proof.
  revert id; induction cs as [|c cs IH]; intros [|id]; simpl;
    try reflexivity. now rewrite IH.
Qed.

(** Entering a wrapper whose guard is [false]. *)
Lemma follows_enter (id : nat) (p : Process) (c : Closure) :
  nth_error (closures p) id = Some c -> terminated c = false ->
  follows p (record_call id (assign_terminated id p))
  /\ guard id (record_call id (assign_terminated id p)) = true.
Proof.
  intros Hn Ht. split; [split; [|split; [|split]]|].
  - intros [ | | ]; reflexivity.
  - simpl. apply map_fn_set_terminated.
  - intros j Hj. unfold guard in *. simpl.
    rewrite nth_error_set_terminated.
    destruct (Nat.eqb j id); [|exact Hj].
    destruct (nth_error (closures p) j); [reflexivity | discriminate].
  - intros Ha j. specialize (Ha j). unfold guard in *.
    cbn [record_call assign_terminated trace closures calls].
    rewrite nth_error_set_terminated.
    destruct (Nat.eqb_spec j id) as [->|Hj].
    + rewrite Hn in *. rewrite Ht in Ha. simpl.
      rewrite Nat.eqb_refl, Ha. reflexivity.
    + apply Nat.eqb_neq in Hj. rewrite Nat.eqb_sym, Hj. exact Ha.
  - unfold guard. simpl. rewrite nth_error_set_terminated, Nat.eqb_refl, Hn.
    reflexivity.
Qed.

Lemma call_all_orderly (w : nat -> Exec) :
  orderly w ->
  forall ids p r p',
    call_all w ids p = Some (r, p') ->
    follows p p'
    /\ (r = Normal ->
        forall id, In id ids -> id < List.length (closures p) ->
                   guard id p' = true)
    /\ (all_return p = true -> r = Normal).
Proof.
  intros Hw. induction ids as [|id ids IH]; intros p r p' E; simpl in E.
  - injection E as <- <-. split; [apply follows_refl|]. split; [|auto].
    intros _ id [].
  - unfold andThen in E. destruct (w id p) as [[r1 p1]|] eqn:E1;
      [|discriminate].
    destruct (Hw id p r1 p1 E1) as (F1 & G1 & N1).
    destruct r1.
    + destruct (IH p1 r p' E) as (F2 & G2 & N2).
      split; [exact (follows_trans _ _ _ F1 F2)|]. split.
      * intros Hr j [<-|Hj] Hlt.
        -- destruct F2 as (_ & _ & Mono & _). apply Mono, G1, Hlt.
        -- apply (G2 Hr j Hj). rewrite (follows_length _ _ F1). exact Hlt.
      * intros Ha. apply N2. rewrite (follows_all_return _ _ F1). exact Ha.
    + injection E as <- <-. split; [exact F1|]. split; [discriminate|].
      exact N1.
Qed.

Lemma run_callback_orderly (w : nat -> Exec) :
  orderly w ->
  forall k p r p',
    run_callback w k p = Some (r, p') ->
    follows p p'
    /\ (all_return p = true -> returns k = true -> r = Normal).
Proof.
  intros Hw. induction k as [| |c k IH]; intros p r p' E; simpl in E.
  - injection E as <- <-. split; [apply follows_refl | auto].
  - injection E as <- <-. split; [apply follows_refl | discriminate].
  - unfold andThen in E.
    destruct (call_all w (listeners c p) p) as [[r1 p1]|] eqn:E1;
      [|discriminate].
    destruct (call_all_orderly w Hw _ _ _ _ E1) as (F1 & _ & N1).
    destruct r1.
    + destruct (IH p1 r p' E) as (F2 & N2).
      split; [exact (follows_trans _ _ _ F1 F2)|].
      intros Ha Hk. apply N2; [|exact Hk].
      rewrite (follows_all_return _ _ F1). exact Ha.
    + injection E as <- <-. split; [exact F1|].
      intros Ha _. apply N1, Ha.
Qed.

Lemma all_return_nth (p : Process) (id : nat) (c : Closure) :
  all_return p = true -> nth_error (closures p) id = Some c ->
  returns (fn c) = true.
Proof.
  unfold all_return. rewrite forallb_forall. intros H Hn.
  apply H, in_map, (nth_error_In _ _ Hn).
Qed.

Lemma wrapper_orderly (depth : nat) : orderly (wrapper depth).
Proof.
  induction depth as [|d IH]; intros id p r p' E; simpl in E;
    destruct (nth_error (closures p) id) as [c|] eqn:Hn.
  - destruct (terminated c) eqn:Ht; simpl in E; [|discriminate].
    injection E as <- <-. split; [apply follows_refl|]. split; [|auto].
    intros _. unfold guard. now rewrite Hn.
  - injection E as <- <-. split; [apply follows_refl|]. split; [|auto].
    intros Hlt. apply nth_error_None in Hn. lia.
  - destruct (terminated c) eqn:Ht; simpl in E.
    + injection E as <- <-. split; [apply follows_refl|]. split; [|auto].
      intros _. unfold guard. now rewrite Hn.
    + destruct (follows_enter id p c Hn Ht) as [F1 G1].
      destruct (run_callback_orderly (wrapper d) IH _ _ _ _ E) as (F2 & N2).
      split; [exact (follows_trans _ _ _ F1 F2)|]. split.
      * intros _. destruct F2 as (_ & _ & Mono & _). apply Mono, G1.
      * intros Ha. apply N2.
        -- rewrite (follows_all_return _ _ F1). exact Ha.
        -- exact (all_return_nth p id c Ha Hn).
  - injection E as <- <-. split; [apply follows_refl|]. split; [|auto].
    intros Hlt. apply nth_error_None in Hn. lia.
Qed.

Lemma run_app (depth : nat) (a b : list Action) (p : Process) :
  run depth (a ++ b) p
  = match run depth a p with
    | Some p1 => run depth b p1
    | None => None
    end.
Proof.
  revert p; induction a as [|[f|c] a IH]; intros p; simpl.
  - reflexivity.
  - apply IH.
  - destruct (emit depth c p) as [[r p1]|]; [apply IH | reflexivity].
Qed.

Lemma registrations_app (a b : list Action) :
  registrations (a ++ b) = registrations a + registrations b.
Proof.
  induction a as [|[f|c] a IH]; simpl; [reflexivity | now rewrite IH | exact IH].
Qed.

Lemma ready_initial : ready initial.
Proof.
  split; [|split].
  - intros id. unfold guard. destruct id; reflexivity.
  - intros [ | | ]; reflexivity.
  - reflexivity.
Qed.

Lemma ready_register (f : Callback) (p : Process) :
  returns f = true -> ready p -> ready (registerProcessExit f p).
Proof.
  intros Hf (Ha & Hw & Hr). split; [|split].
  - intros id. specialize (Ha id). unfold guard in *. simpl.
    destruct (Nat.lt_ge_cases id (List.length (closures p))) as [Hlt|Hge].
    + rewrite nth_error_app1 by assumption. exact Ha.
    + assert (Hnone : nth_error (closures p) id = None)
        by (apply nth_error_None; assumption).
      rewrite Hnone in Ha. rewrite nth_error_app2 by assumption.
      destruct (id - List.length (closures p)) as [|[|m]]; simpl; exact Ha.
  - intros c. pose proof (Hw c) as H. unfold registerProcessExit.
    destruct c; cbn [listeners onSIGINT onSIGTERM onExit closures] in *;
      rewrite H, length_app; cbn [List.length];
      rewrite Nat.add_1_r, seq_S; reflexivity.
  - unfold all_return in *. simpl.
    rewrite map_app, forallb_app, Hr. simpl. now rewrite Hf.
Qed.

Lemma ready_follows (p p' : Process) : ready p -> follows p p' -> ready p'.
Proof.
  intros (Ha & Hw & Hr) F. pose proof (follows_length _ _ F) as Hl.
  pose proof (follows_all_return _ _ F) as Hr'.
  destruct F as (L & _ & _ & A). split; [|split].
  - exact (A Ha).
  - intros c. rewrite L, Hl. apply Hw.
  - now rewrite Hr'.
Qed.

Lemma run_ready (depth : nat) (acts : list Action) :
  forall p p',
    callbacks_return acts = true -> ready p ->
    run depth acts p = Some p' ->
    ready p'
    /\ List.length (closures p')
       = List.length (closures p) + registrations acts.
Proof.
  induction acts as [|[f|c] acts IH]; intros p p' Hc Hr E; simpl in *.
  - injection E as <-. split; [exact Hr | lia].
  - apply andb_true_iff in Hc as [Hf Hc].
    destruct (IH _ _ Hc (ready_register f p Hf Hr) E) as [R L].
    split; [exact R|]. rewrite L. simpl. rewrite length_app. simpl. lia.
  - unfold emit in E.
    destruct (call_all (wrapper depth) (listeners c p) p) as [[r p1]|] eqn:E1;
      [|discriminate].
    destruct (call_all_orderly _ (wrapper_orderly depth) _ _ _ _ E1)
      as (F & _).
    destruct (IH _ _ Hc (ready_follows _ _ Hr F) E) as [R L].
    split; [exact R|]. rewrite L, (follows_length _ _ F). reflexivity.
Qed.

(** When every guard is set, a trigger changes nothing. *)
Lemma call_all_settled (depth : nat) (p : Process) (ids : list nat) :
  (forall id, In id ids -> guard id p = true) ->
  call_all (wrapper depth) ids p = Some (Normal, p).
Proof.
  induction ids as [|id ids IH]; intros H; simpl; [reflexivity|].
  unfold andThen.
  assert (E : wrapper depth id p = Some (Normal, p)).
  { specialize (H id (or_introl eq_refl)). unfold guard in H.
    destruct depth; simpl;
      destruct (nth_error (closures p) id) as [c|]; try discriminate;
      rewrite H; reflexivity. }
  rewrite E. apply IH. intros j Hj. apply H. right. exact Hj.
Qed.

Lemma run_fires_settled (depth : nat) (cs : list Channel) (p : Process) :
  wired p ->
  (forall id, id < List.length (closures p) -> guard id p = true) ->
  run depth (List.map Fire cs) p = Some p.
Proof.
  intros Hw Hg. induction cs as [|c cs IH]; simpl; [reflexivity|].
  unfold emit. rewrite call_all_settled; [exact IH|].
  intros id Hin. apply Hg. rewrite (Hw c) in Hin.
  apply in_seq in Hin. lia.
Qed.

(** After the registrations and triggers of [acts], none of whose callbacks
    throws, one more trigger leaves every guard set. *)
Lemma fire_settles (acts : list Action) (c : Channel) (extra : nat) :
  callbacks_return acts = true ->
  exists p,
    run (registrations acts + extra) (acts ++ [Fire c]) initial = Some p
    /\ ready p
    /\ List.length (closures p) = registrations acts
    /\ (forall id, id < registrations acts -> guard id p = true).
Proof.
  intros Hc. set (depth := registrations acts + extra).
  destruct (@run_one_shot depth (acts ++ [Fire c]) initial one_shot_initial)
    as (p & E & _).
  { rewrite registrations_app. unfold live, depth. simpl. lia. }
  exists p. split; [exact E|].
  rewrite run_app in E.
  destruct (run depth acts initial) as [p0|] eqn:E0; [|discriminate].
  destruct (run_ready depth acts initial p0 Hc ready_initial E0) as [R0 L0].
  simpl in L0, E. unfold emit in E.
  destruct (call_all (wrapper depth) (listeners c p0) p0) as [[r p1]|] eqn:E1;
    [|discriminate].
  injection E as ->.
  destruct (call_all_orderly _ (wrapper_orderly depth) _ _ _ _ E1)
    as (F & G & N).
  split; [exact (ready_follows _ _ R0 F)|].
  split; [rewrite (follows_length _ _ F); exact L0|].
  intros id Hid. destruct R0 as (_ & Hw & Hr).
  apply (G (N Hr) id).
  - rewrite (Hw c). apply in_seq. lia.
  - lia.
Qed.

(** X8: when no registered callback throws, then after any registrations and
    triggers, whichever trigger comes next leaves every callback registered
    so far called exactly once, those registered after earlier triggers
    too: each registration has a guard of its own. *)
Theorem registerProcessExit_exactly_once
        (acts : list Action) (c : Channel) (extra : nat) :
  callbacks_return acts = true ->
  exists p,
    run (registrations acts + extra) (acts ++ [Fire c]) initial = Some p
    /\ forall id, id < registrations acts -> calls id (trace p) = 1.
Proof.
  intros Hc.
  destruct (fire_settles acts c extra Hc) as (p & E & (Ha & _) & _ & G).
  exists p. split; [exact E|].
  intros id Hid. rewrite (Ha id), (G id Hid). reflexivity.
Qed.

Lemma registerProcessExit_exactly_once_witness :
  exists p,
    run 2 ([Register (Emit EXIT Return); Fire SIGINT; Register Return]
           ++ [Fire SIGTERM]) initial = Some p
    /\ forall id, id < 2 -> calls id (trace p) = 1.
Proof.
  apply (registerProcessExit_exactly_once
           [Register (Emit EXIT Return); Fire SIGINT; Register Return]
           SIGTERM 0).
  reflexivity.
Defined.

(** X9: when no registered callback throws, then once a trigger has been
    handled, any number of further triggers, on any channels, leaves the
    process as it is: nothing is called and nothing is recorded. *)
Theorem registerProcessExit_further_triggers_idle
        (acts : list Action) (c : Channel) (cs : list Channel)
        (extra : nat) :
  callbacks_return acts = true ->
  exists p,
    run (registrations acts + extra) (acts ++ [Fire c]) initial = Some p
    /\ run (registrations acts + extra)
           (acts ++ Fire c :: List.map Fire cs) initial = Some p.
Proof.
  intros Hc.
  destruct (fire_settles acts c extra Hc) as (p & E & (_ & Hw & _) & L & G).
  exists p. split; [exact E|].
  change (acts ++ Fire c :: List.map Fire cs)
    with (acts ++ [Fire c] ++ List.map Fire cs).
  rewrite app_assoc, run_app, E.
  apply run_fires_settled; [exact Hw|].
  rewrite L. exact G.
Qed.

Lemma registerProcessExit_further_triggers_idle_witness :
  exists p,
    run 1 ([Register (Emit EXIT Return)] ++ [Fire SIGINT]) initial = Some p
    /\ run 1 ([Register (Emit EXIT Return)]
              ++ Fire SIGINT :: List.map Fire [SIGTERM; EXIT; SIGINT])
           initial = Some p.
Proof.
  apply (registerProcessExit_further_triggers_idle
           [Register (Emit EXIT Return)] SIGINT [SIGTERM; EXIT; SIGINT] 0).
  reflexivity.
Defined.

(* ================================================================== *)
(** ** More on [createStartupScriptCommand]: failures and the log *)
(* ================================================================== *)

Lemma arrayIncludes_npm_yarn (bin : jsstring) :
  arrayIncludes [lit "npm"; lit "yarn"] bin = true ->
  bin = lit "npm" \/ bin = lit "yarn".
Proof.
  unfold arrayIncludes. cbn [existsb]. rewrite orb_false_r.
  intros H. apply orb_true_iff in H as [H|H]; apply streq_eq in H; auto.
Qed.

Lemma arrayIncludes_npx (bin : jsstring) :
  arrayIncludes [lit "npx"] bin = true -> bin = lit "npx".
Proof.
  unfold arrayIncludes. cbn [existsb]. rewrite orb_false_r.
  intros H. now apply streq_eq in H.
Qed.

Lemma between_inv (p1 p2 a b q : jsstring) :
  p1 ++ p2 ++ a ++ q = p1 ++ p2 ++ b ++ q -> a = b.
Proof.
  intros H. apply app_inv_head in H. apply app_inv_head in H.
  now apply app_inv_tail in H.
Qed.

Section StartupScriptMore.

Variable isAbsolute : jsstring -> bool.
Variable resolve : jsstring -> jsstring -> jsstring.
Variable existsSync : jsstring -> bool.
Variable cwd : jsstring.

Local Abbreviation command :=
  (createStartupScriptCommand isAbsolute resolve existsSync cwd).

(** The outcome for a reference [bin:script]. *)
Lemma command_of_reference (bin script : jsstring) (options : SWACLIConfig)
      (log : list LogCall) :
  includes bin (lit ":") = false ->
  command (bin ++ COLON :: script) options log
  = (if arrayIncludes [lit "npm"; lit "yarn"] bin
     then Some (bin ++ lit " run " ++ script ++ lit " --if-present")
     else if arrayIncludes [lit "npx"] bin
          then Some (bin ++ lit " " ++ script)
          else None,
     log).
Proof.
  intros H. destruct (@script_portion bin script H) as [Hb Hs].
  unfold createStartupScriptCommand. rewrite includes_colon.
  destruct (split (bin ++ COLON :: script) COLON) as [b parts].
  simpl in Hb, Hs. subst b. rewrite Hs.
  destruct (arrayIncludes [lit "npm"; lit "yarn"] bin); [reflexivity|].
  destruct (arrayIncludes [lit "npx"] bin); reflexivity.
Qed.

(** X10: the calls of [logger.error] made before are all kept, in order; one
    call of [createStartupScriptCommand] adds at most one, always with the
    fatal flag, and only together with a [null] result. *)
Theorem createStartupScriptCommand_log
        (startupScript : jsstring) (options : SWACLIConfig)
        (log : list LogCall) :
  exists added,
    snd (command startupScript options log) = log ++ added
    /\ List.length added <= 1
    /\ (forall c, In c added -> fatal c = true)
    /\ (added <> [] -> fst (command startupScript options log) = None).
Proof.
  unfold createStartupScriptCommand.
  destruct (includes startupScript (lit ":")).
  - exists []. rewrite app_nil_r.
    destruct (split startupScript COLON) as [bin script].
    destruct (arrayIncludes [lit "npm"; lit "yarn"] bin);
      [|destruct (arrayIncludes [lit "npx"] bin)];
      (split; [reflexivity|]; split; [simpl; lia|];
       split; [intros c []|]; intros H; now contradiction H).
  - destruct (existsSync (resolved isAbsolute resolve cwd startupScript options)).
    + exists []. rewrite app_nil_r.
      split; [reflexivity|]; split; [simpl; lia|].
      split; [intros c []|]. intros H; now contradiction H.
    + eexists. split; [reflexivity|]. split; [simpl; lia|].
      split; [|reflexivity].
      intros c [<-|[]]. reflexivity.
Qed.

(** X11: the result is [null] in two cases and no other: the reference has
    a ":" and its first piece is none of npm, yarn and npx; or it has no ":"
    and the path it stands for is not on disk. *)
Theorem createStartupScriptCommand_null_iff
        (startupScript : jsstring) (options : SWACLIConfig)
        (log : list LogCall) :
  fst (command startupScript options log) = None
  <-> (includes startupScript (lit ":") = true
       /\ arrayIncludes [lit "npm"; lit "yarn"; lit "npx"]
                        (fst (split startupScript COLON)) = false)
      \/ (includes startupScript (lit ":") = false
          /\ existsSync
               (if isAbsolute startupScript then startupScript
                else resolve
                       match appLocation options with
                       | Some a => if truthy a then a else cwd
                       | None => cwd
                       end startupScript) = false).
Proof.
  assert (Hp : resolved isAbsolute resolve cwd startupScript options
               = if isAbsolute startupScript then startupScript
                 else resolve
                        match appLocation options with
                        | Some a => if truthy a then a else cwd
                        | None => cwd
                        end startupScript).
  { unfold resolved, baseDirectory.
    destruct (isAbsolute startupScript); reflexivity. }
  rewrite <- Hp. unfold createStartupScriptCommand.
  destruct (includes startupScript (lit ":")).
  - destruct (split startupScript COLON) as [bin script]. cbn [fst].
    unfold arrayIncludes. cbn [existsb]. rewrite !orb_false_r.
    destruct (streq bin (lit "npm")), (streq bin (lit "yarn")),
      (streq bin (lit "npx")); cbn [orb fst]; split;
      try discriminate; try (intros _; left; split; reflexivity);
      try (intros [[_ H]|[H _]]; discriminate H); try reflexivity.
  - destruct (existsSync (resolved isAbsolute resolve cwd startupScript options));
      cbn [fst]; split;
      try discriminate; try (intros _; right; split; reflexivity);
      try (intros [[H _]|[_ H]]; discriminate H); try reflexivity.
Qed.

(** X12: two references with a ":" that give the same command are the same
    reference: the binary and the script can be read back from the
    command. *)
Theorem createStartupScriptCommand_reference_read_back
        (s1 s2 cmd : jsstring) (o1 o2 : SWACLIConfig)
        (l1 l2 : list LogCall) :
  includes s1 (lit ":") = true ->
  includes s2 (lit ":") = true ->
  fst (command s1 o1 l1) = Some cmd ->
  fst (command s2 o2 l2) = Some cmd ->
  s1 = s2.
Proof.
  intros H1 H2 E1 E2.
  destruct (@reference_with_colon s1 H1) as (b1 & sc1 & -> & Hb1).
  destruct (@reference_with_colon s2 H2) as (b2 & sc2 & -> & Hb2).
  rewrite command_of_reference in E1, E2 by assumption. cbn [fst] in E1, E2.
  destruct (arrayIncludes [lit "npm"; lit "yarn"] b1) eqn:A1;
    [apply arrayIncludes_npm_yarn in A1
    |destruct (arrayIncludes [lit "npx"] b1) eqn:X1;
     [apply arrayIncludes_npx in X1 | discriminate]];
    (destruct (arrayIncludes [lit "npm"; lit "yarn"] b2) eqn:A2;
     [apply arrayIncludes_npm_yarn in A2
     |destruct (arrayIncludes [lit "npx"] b2) eqn:X2;
      [apply arrayIncludes_npx in X2 | discriminate]]);
    injection E1 as E1; injection E2 as E2; subst cmd.
  - destruct A1 as [-> | ->], A2 as [-> | ->];
      try (simpl in E2; discriminate E2).
    + apply (between_inv (lit "npm") (lit " run ") sc2 sc1) in E2.
      now subst.
    + apply (between_inv (lit "yarn") (lit " run ") sc2 sc1) in E2.
      now subst.
  - destruct A1 as [-> | ->]; subst b2; simpl in E2; discriminate E2.
  - destruct A2 as [-> | ->]; subst b1; simpl in E2; discriminate E2.
  - subst b1 b2.
    apply app_inv_head in E2. injection E2 as ->. reflexivity.
Qed.

End StartupScriptMore.

(** X13: for a reference with a ":", the working directory, the file
    system, the [path] module, the options and the log play no part: the
    result is fixed by the reference alone, and a path with a ":" in it (a
    drive letter, say) is never looked up on disk. *)
Theorem createStartupScriptCommand_colon_alone (startupScript : jsstring) :
  includes startupScript (lit ":") = true ->
  exists result,
    forall isAbsolute resolve existsSync cwd options log,
      createStartupScriptCommand isAbsolute resolve existsSync cwd
                                 startupScript options log
      = (result, log).
Proof.
  intros H.
  exists (let (bin, script) := split startupScript COLON in
          if arrayIncludes [lit "npm"; lit "yarn"] bin
          then Some (bin ++ lit " run " ++ join script (lit ":")
                     ++ lit " --if-present")
          else if arrayIncludes [lit "npx"] bin
               then Some (bin ++ lit " " ++ join script (lit ":"))
               else None).
  intros. unfold createStartupScriptCommand. rewrite H.
  destruct (split startupScript COLON) as [bin script].
  destruct (arrayIncludes [lit "npm"; lit "yarn"] bin); [reflexivity|].
  destruct (arrayIncludes [lit "npx"] bin); reflexivity.
Qed.


Lemma createStartupScriptCommand_reference_read_back_witness :
  lit "yarn:test:e2e" = lit "yarn:test:e2e".
Proof.
  apply (createStartupScriptCommand_reference_read_back
           posixIsAbsolute posixResolve (filesOf []) (lit "/work")
           (lit "yarn:test:e2e") (lit "yarn:test:e2e")
           (lit "yarn run test:e2e --if-present")
           (mkConfig None) (mkConfig (Some (lit "/app")))
           [] [mkLogCall (lit "earlier") false]);
    reflexivity.
Defined.

Lemma createStartupScriptCommand_colon_alone_witness :
  exists result,
    forall isAbsolute resolve existsSync cwd options log,
      createStartupScriptCommand isAbsolute resolve existsSync cwd
                                 (lit "C:\app\server.js") options log
      = (result, log).
Proof.
  apply (createStartupScriptCommand_colon_alone (lit "C:\app\server.js")).
  reflexivity.
Defined.

(** A drive-letter path is taken for a binary and a script: the file may
    well exist, the result is [null] and nothing is logged. *)
Example startup_drive_letter :
  createStartupScriptCommand (fun _ => true) (fun _ p => p) (fun _ => true)
                             (lit "C:\work") (lit "C:\app\server.js")
                             (mkConfig None) []
  = (None, []).
Proof. reflexivity. Qed.
